(** * YT-Music Lite: search normalisation and cached audio resolution

    A shallow embedding of [main.py]: the thumbnail helper, the unified
    search handler with its normalisation loop, the audio URL extractor and
    the track handler with its TTL cache, followed by the properties the
    design document states about them.

    Conventions.
    - Provider records are Python dicts of JSON-like values ([pyval]);
      dicts are [gmap string pyval], [d.get(k)] is [d !! k].
      Numbers and booleans are left out of [pyval]: they occur in provider
      records only under keys that the handlers never read.
    - An exception is an [exn]; code that can raise returns an [outcome].
    - Calls to the two providers are recorded in a trace of [call]s, so
      that "no upstream call" is a statement about that trace.
    - The monotonic clock is read in milliseconds ([Z]). *)

From Stdlib Require Import Ascii.
From stdpp Require Import gmap strings pretty list fin_maps sorting.

Set Warnings "-register-all".
Local Open Scope Z_scope.

(** ** Python values and exceptions *)

Inductive pyval : Type :=
  | PNone : pyval
  | PStr (s : string) : pyval
  | PList (l : list pyval) : pyval
  | PDict (d : gmap string pyval) : pyval.

(** A provider record is a dict. *)
Abbreviation record := (gmap string pyval).

(** Python truthiness: [None], the empty string, list and dict are falsy. *)
Definition truthy (v : pyval) : bool :=
  match v with
  | PNone => false
  | PStr s => negb (String.eqb s "")
  | PList l => match l with [] => false | _ => true end
  | PDict d => negb (bool_decide (d = ∅))
  end.

(** [a or b]. *)
Definition py_or (a b : pyval) : pyval := if truthy a then a else b.

(** [d.get(k)], with the default [None]. *)
Definition dict_get (d : record) (k : string) : pyval := default PNone (d !! k).

(** [d.get(k, dflt)]. *)
Definition dict_get_default (d : record) (k : string) (dflt : pyval) : pyval :=
  default dflt (d !! k).

Inductive exn : Type :=
  | HTTPException (status_code : Z) (detail : string)
  | TimeoutError                      (* asyncio.TimeoutError *)
  | ValueError (msg : string)
  | TypeError
  | KeyError
  | IndexError
  | ProviderError (msg : string).     (* raised inside a provider library *)

Inductive outcome (A : Type) : Type :=
  | Return (a : A)
  | Raise (e : exn).
Arguments Return {A} a.
Arguments Raise {A} e.

(** Sequencing: an exception skips the rest.  With these instances the
    notation [x ← m; k] reads as Python's statement order. *)
#[global] Instance outcome_ret : MRet outcome := λ A, Return.
#[global] Instance outcome_bind : MBind outcome := λ A B k m,
  match m with
  | Return a => k a
  | Raise e => Raise e
  end.

(** The status line FastAPI sends: an [HTTPException] carries its own
    status code, any other exception that leaves a handler is a 500. *)
Definition status_of {A} (r : outcome A) : Z :=
  match r with
  | Return _ => 200
  | Raise (HTTPException code _) => code
  | Raise _ => 500
  end.

(** ** Thumbnail helper *)

Definition tier (kind : string) : list string :=
  if String.eqb kind "song"
  then ["maxresdefault"; "hqdefault"; "mqdefault"; "default"]
  else ["hqdefault"; "mqdefault"; "default"].

(** The f-string [https://img.youtube.com/vi/{video_id}/{quality}.jpg]. *)
Definition quality_url (video_id quality : string) : string :=
  "https://img.youtube.com/vi/" +:+ video_id +:+ "/" +:+ quality +:+ ".jpg".

(** The [for] loop returns in its first iteration; the statement after
    the loop is reached only for an empty tier.  [lru_cache] memoises a
    function of its arguments alone and is not modelled. *)
Definition thumbnail_url (video_id kind : string) : string :=
  match tier kind with
  | quality :: _ => quality_url video_id quality
  | [] => quality_url video_id "default"
  end.

(** ** Calls to the providers *)

Inductive call : Type :=
  | Search (q : string) (filter : option string) (limit : Z)
      (* ytm.search(q, filter=..., limit=...) *)
  | Streams (video_id : string)
      (* YouTube(".../watch?v=" + video_id).streams *)
  | GetSong (video_id : string).
      (* ytm.get_song(video_id) *)

(** ** Unified search *)

(** The [type] query parameter, a [Literal["song", "video", "all"]]. *)
Inductive search_type : Type := song | video | all.

Definition type_str (type : search_type) : string :=
  match type with
  | song => "song"
  | video => "video"
  | all => "all"
  end.

(** One entry of the ["results"] list.  The ["type"] entry is a string:
    the memoised thumbnail helper hashes its arguments, and the only
    truthy hashable [pyval] is a non-empty string. *)
Record SearchResult : Type := {
  sr_title : pyval;
  sr_artist : string;
  sr_thumbnail : string;
  sr_videoId : string;
  sr_type : string;
}.

(** [for a in v]: a list yields its elements, a string its characters, a
    dict its keys; [None] is not iterable. *)
Definition py_iter (v : pyval) : outcome (list pyval) :=
  match v with
  | PNone => Raise TypeError
  | PStr s => Return ((λ c, PStr (String c EmptyString)) <$> String.list_ascii_of_string s)
  | PList l => Return l
  | PDict d => Return (PStr <$> (map_to_list d).*1)
  end.

(** [[a.get("name", "Unknown") for a in src if isinstance(a, dict)]] *)
Definition artist_names (src : list pyval) : list pyval :=
  omap (λ a, match a with
             | PDict d => Some (dict_get_default d "name" (PStr "Unknown"))
             | _ => None
             end) src.

(** [sep.join(l)] raises [TypeError] on an item that is not a string. *)
Fixpoint str_items (l : list pyval) : outcome (list string) :=
  match l with
  | [] => Return []
  | PStr s :: l' => ss ← str_items l'; Return (s :: ss)
  | _ :: _ => Raise TypeError
  end.

Definition py_join (sep : string) (l : list pyval) : outcome string :=
  ss ← str_items l; Return (String.concat sep ss).

(** The body of the loop after [seen.add(vid)], lines 120 to 134: the
    dict appended to [results] for [item], whose identifier is [vid]. *)
Definition make_entry (item : record) (vid : string) : outcome SearchResult :=
  let kind := py_or (dict_get item "resultType") (PStr "video") in
  src ← py_iter (py_or (py_or (dict_get item "artists") (dict_get item "channel"))
                       (PList []));
  let artists := artist_names src in
  let title := dict_get_default item "title" (PStr "No title") in
  artist ← match artists with
           | [] => Return "Unknown"
           | _ => py_join ", " artists
           end;
  match kind with
  | PStr k =>
      Return {| sr_title := title;
                sr_artist := artist;
                sr_thumbnail := thumbnail_url vid k;
                sr_videoId := vid;
                sr_type := k |}
  | _ => Raise TypeError
  end.

(** The loop of lines 113 to 134, with its two accumulators. *)
Fixpoint normalize_loop (raw : list record) (results : list SearchResult)
    (seen : gset string) : outcome (list SearchResult) :=
  match raw with
  | [] => Return results
  | item :: raw' =>
      let vid := dict_get item "videoId" in
      if negb (truthy vid) then normalize_loop raw' results seen
      else match vid with
           | PStr v =>
               if bool_decide (v ∈ seen) then normalize_loop raw' results seen
               else
                 entry ← make_entry item v;
                 normalize_loop raw' (results ++ [entry]) ({[v]} ∪ seen)
           | _ => Raise TypeError      (* unhashable: [vid in seen] *)
           end
  end.

(** The catalogue provider: what [ytm.search(q, filter=f, limit=n)]
    returns or raises. *)
Abbreviation search_provider := (string → option string → Z → outcome (list record)).

(** The handler of [GET /search]: the calls it makes and its outcome.
    [asyncio.gather(..., return_exceptions=True)] starts both queries and
    hands back each one's result or exception. *)
Definition search_tracks (ytm_search : search_provider)
    (q : string) (limit : Z) (type : search_type)
    : list call * outcome (list SearchResult) :=
  let '(calls, fetched) :=
    match type with
    | all =>
        let songs := ytm_search q (Some "songs") limit in
        let videos := ytm_search q None limit in
        ([Search q (Some "songs") limit; Search q None limit],
         match songs, videos with
         | Raise e, _ => Raise e
         | Return _, Raise e => Raise e
         | Return songs, Return videos => Return (songs ++ videos)
         end)
    | _ =>
        ([Search q (Some (type_str type)) limit],
         ytm_search q (Some (type_str type)) limit)
    end in
  (calls,
   match fetched with
   | Raise _ => Raise (HTTPException 502 "Upstream unavailable")
   | Return [] => Raise (HTTPException 404 "No results")
   | Return raw => normalize_loop raw [] ∅
   end).

(** ** The audio URL cache

    [cachetools.TTLCache] is a library class; this is its documented
    behaviour: a least-recently-used cache whose items also expire, [ttl]
    seconds after they were stored.  An expired item is no longer
    accessible and is removed at the next store; when there is no room the
    least recently used items are discarded. *)
Module TTLCache.

Record link : Type := {
  key : Z;
  value : string;
  expires : Z;             (* clock reading, in milliseconds *)
}.

(** [links] holds the items from the least to the most recently used. *)
Record t : Type := {
  maxsize : nat;
  ttl : Z;                 (* seconds *)
  links : list link;
}.

Definition with_links (c : t) (ls : list link) : t :=
  {| maxsize := maxsize c; ttl := ttl c; links := ls |}.

Definition live (time : Z) (l : link) : bool := time <? expires l.

(** [c.get(k)] at clock reading [time]: the value of an item that is
    present and not expired, which becomes the most recently used. *)
Definition get (c : t) (k : Z) (time : Z) : option string * t :=
  match List.find (λ l, bool_decide (key l = k)) (links c) with
  | Some l =>
      if live time l
      then (Some (value l),
            with_links c (filter (λ l', key l' ≠ k) (links c) ++ [l]))
      else (None, c)
  | None => (None, c)
  end.

(** [c[k] = v] at clock reading [time]. *)
Definition setitem (c : t) (k : Z) (v : string) (time : Z) : outcome t :=
  if bool_decide (maxsize c < 1)%nat then Raise (ValueError "value too large")
  else
    let unexpired := filter (λ l, live time l = true) (links c) in
    let kept :=
      if bool_decide (k ∈ key <$> unexpired)
      then filter (λ l, key l ≠ k) unexpired
      else drop (length unexpired + 1 - maxsize c) unexpired in
    Return (with_links c
              (kept ++ [{| key := k; value := v;
                           expires := time + 1000 * ttl c |}])).

End TTLCache.

(** [TTLCache(maxsize=1_000, ttl=int(os.getenv("AUDIO_TTL", 300)))] *)
Definition audio_cache (AUDIO_TTL : option Z) : TTLCache.t :=
  {| TTLCache.maxsize := 1000;
     TTLCache.ttl := default 300 AUDIO_TTL;
     TTLCache.links := [] |}.

(** ** Audio URL extractor *)

(** What the handlers use of a [pytubefix] stream.  [abr] is the number
    that [order_by] reads in the bitrate string (["128kbps"] is 128),
    [None] when the stream has none. *)
Record Stream : Type := {
  includes_audio_track : bool;
  includes_video_track : bool;
  subtype : string;
  abr : option N;
  url : string;
}.

(** The [only_audio] test of a stream query. *)
Definition only_audio (s : Stream) : Prop :=
  includes_audio_track s = true ∧ includes_video_track s = false.

(** [streams.filter(only_audio=True, file_extension="mp4")] *)
Definition filter_streams (file_extension : string) (l : list Stream) : list Stream :=
  filter (λ s, only_audio s ∧ subtype s = file_extension) l.

(** [sorted] is stable: an item goes before the items that sort equal. *)
Fixpoint insert_by (k : N) (s : Stream) (l : list (N * Stream)) : list (N * Stream) :=
  match l with
  | [] => [(k, s)]
  | (k', s') :: l' =>
      if (k <=? k')%N then (k, s) :: l else (k', s') :: insert_by k s l'
  end.

(** [.order_by("abr")]: the streams that have a bitrate, by ascending
    bitrate. *)
Fixpoint order_by_abr (l : list Stream) : list (N * Stream) :=
  match l with
  | [] => []
  | s :: l' =>
      match abr s with
      | Some k => insert_by k s (order_by_abr l')
      | None => order_by_abr l'
      end
  end.

(** The order of the sorted list. *)
Definition by_bitrate (x y : N * Stream) : Prop := (x.1 ≤ y.1)%N.

(** The media-stream provider: what the stream listing of a video
    returns or raises. *)
Abbreviation stream_provider := (string → outcome (list Stream)).

(** The [try] only logs and raises the exception again. *)
Definition _extract_audio_url (yt_streams : stream_provider) (video_id : string)
    : outcome string :=
  streams ← yt_streams video_id;
  match last (order_by_abr (filter_streams "mp4" streams)) with
  | None => Raise (ValueError "No audio stream")
  | Some (_, stream) => Return (url stream)
  end.

(** [asyncio.wait_for(job, timeout)] for a job that takes [elapsed]
    milliseconds: past the deadline the job's result is dropped and
    [TimeoutError] is raised.  (A job that ends exactly on the deadline
    races with the timer; the model lets the job win.) *)
Definition wait_for {A} (timeout elapsed : Z) (job : outcome A) : outcome A :=
  if timeout <? elapsed then Raise TimeoutError else job.

(** ** Track details *)

(** What one request meets upstream: the stream listing and how long the
    extraction runs in its worker thread, and the catalogue metadata. *)
Record upstream : Type := {
  yt_streams : stream_provider;
  elapsed : string → Z;                       (* milliseconds *)
  ytm_get_song : string → outcome pyval;
}.

(** [v[k]] for a string key. *)
Definition py_getitem (v : pyval) (k : string) : outcome pyval :=
  match v with
  | PDict d => match d !! k with
               | Some x => Return x
               | None => Raise KeyError
               end
  | _ => Raise TypeError
  end.

(** [v[-1]] *)
Definition py_last (v : pyval) : outcome pyval :=
  match v with
  | PList l => match last l with
               | Some x => Return x
               | None => Raise IndexError
               end
  | PStr s => match last (String.list_ascii_of_string s) with
              | Some c => Return (PStr (String c EmptyString))
              | None => Raise IndexError
              end
  | PDict _ => Raise KeyError
  | PNone => Raise TypeError
  end.

Record TrackDetails : Type := {
  td_title : pyval;
  td_artist : pyval;
  td_thumbnail : pyval;
  td_audioUrl : string;
}.

(** Lines 160 to 172 of the handler: the audio URL, from the cache or
    from the extractor, at clock reading [now]; with the calls made and
    the cache afterwards.  [hash] is Python's [hash] on strings. *)
Definition audio_stage (hash : string → Z) (up : upstream) (now : Z)
    (cache : TTLCache.t) (video_id : string)
    : list call * TTLCache.t * outcome string :=
  let cache_key := hash video_id in
  match TTLCache.get cache cache_key now with
  | (Some audio_url, cache') => ([], cache', Return audio_url)
  | (None, cache') =>
      match wait_for 8000 (elapsed up video_id)
                     (_extract_audio_url (yt_streams up) video_id) with
      | Raise TimeoutError =>
          ([Streams video_id], cache', Raise (HTTPException 504 "Audio timeout"))
      | Raise _ =>
          ([Streams video_id], cache',
           Raise (HTTPException 503 "Audio extraction failed"))
      | Return audio_url =>
          match TTLCache.setitem cache' cache_key audio_url
                                 (now + elapsed up video_id) with
          | Return cache'' => ([Streams video_id], cache'', Return audio_url)
          | Raise e => ([Streams video_id], cache', Raise e)
          end
      end
  end.

(** The handler of [GET /track/{video_id}]. *)
Definition track_details (hash : string → Z) (up : upstream) (now : Z)
    (cache : TTLCache.t) (video_id : string)
    : list call * TTLCache.t * outcome TrackDetails :=
  match audio_stage hash up now cache video_id with
  | (calls, cache', Raise e) => (calls, cache', Raise e)
  | (calls, cache', Return audio_url) =>
      (calls ++ [GetSong video_id], cache',
       match ytm_get_song up video_id with
       | Raise _ => Raise (HTTPException 503 "Metadata unavailable")
       | Return meta =>
           details ← py_getitem meta "videoDetails";
           title ← py_getitem details "title";
           author ← py_getitem details "author";
           thumb ← py_getitem details "thumbnail";
           thumbs ← py_getitem thumb "thumbnails";
           best ← py_last thumbs;
           thumb_url ← py_getitem best "url";
           Return {| td_title := title;
                     td_artist := author;
                     td_thumbnail := thumb_url;
                     td_audioUrl := audio_url |}
       end)
  end.

(** ** Vocabulary of the design document

    The definitions below are not taken from the code: they say, in the
    words of the design document, what the search handler is meant to
    produce.  The properties compare them with the code above. *)

(** The track identifier of a record, when it bears a non-empty one. *)
Definition identifier (item : record) : option string :=
  match item !! "videoId" with
  | Some (PStr v) => if decide (v = "") then None else Some v
  | _ => None
  end.

(** A list of identifiers without its repetitions, each kept where it
    occurs first. *)
Fixpoint first_occurrences (ids : list string) : list string :=
  match ids with
  | [] => []
  | v :: ids' => v :: filter (λ w, w ≠ v) (first_occurrences ids')
  end.

(** The first record of [raw] that bears the identifier [v]. *)
Definition first_bearing (v : string) (raw : list record) : option record :=
  List.find (λ item, bool_decide (identifier item = Some v)) raw.

(** The names that a field of artist credits yields: one per entry that is
    a dict with a string under ["name"]. *)
Definition entry_name (a : pyval) : option string :=
  match a with
  | PDict d => match d !! "name" with
               | Some (PStr n) => Some n
               | _ => None
               end
  | _ => None
  end.

Definition names_from (field : option pyval) : list string :=
  match field with
  | Some (PList l) => omap entry_name l
  | _ => []
  end.

(** The artist line: the names of ["artists"], else those of ["channel"],
    else the literal. *)
Definition spec_artist (item : record) : string :=
  match names_from (item !! "artists"), names_from (item !! "channel") with
  | [], [] => "Unknown"
  | [], ns => String.concat ", " ns
  | ns, _ => String.concat ", " ns
  end.

(** The declared result type of a record: a non-empty string under
    ["resultType"]. *)
Definition declared_type (item : record) : option string :=
  match item !! "resultType" with
  | Some (PStr k) => if decide (k = "") then None else Some k
  | _ => None
  end.

(** *** The shape of provider records

    The catalogue provider hands out records whose identifier and result
    type are strings when present, and whose credits are lists of dicts
    that carry a string name.  [well_typed] is the part of this that keeps
    the loop from raising [TypeError]; [credited] is the shape of the two
    credit fields. *)
Definition str_or_absent (v : option pyval) : bool :=
  match v with
  | None | Some PNone | Some (PStr _) => true
  | Some _ => false
  end.

Definition name_is_str (a : pyval) : bool :=
  match a with
  | PDict d => match d !! "name" with
               | None | Some (PStr _) => true
               | Some _ => false
               end
  | _ => true
  end.

Definition names_are_str (v : option pyval) : bool :=
  match v with
  | Some (PList l) => forallb name_is_str l
  | _ => true
  end.

Definition well_typed (item : record) : bool :=
  str_or_absent (item !! "videoId")
  && str_or_absent (item !! "resultType")
  && names_are_str (item !! "artists")
  && names_are_str (item !! "channel").

Definition named (a : pyval) : bool :=
  match a with
  | PDict d => match d !! "name" with
               | Some (PStr _) => true
               | _ => false
               end
  | _ => false
  end.

Definition credit_list (v : option pyval) : bool :=
  match v with
  | None => true
  | Some (PList l) => forallb named l
  | Some _ => false
  end.

Definition credited (item : record) : bool :=
  credit_list (item !! "artists") && credit_list (item !! "channel").

(** The raw list of a request, when the provider answers every query:
    the result set of the songs query followed by that of the videos query
    for [all], the single result set otherwise. *)
Definition merged (ytm_search : search_provider) (q : string) (limit : Z)
    (type : search_type) : option (list record) :=
  match type with
  | all =>
      match ytm_search q (Some "songs") limit, ytm_search q None limit with
      | Return songs, Return videos => Some (songs ++ videos)
      | _, _ => None
      end
  | _ =>
      match ytm_search q (Some (type_str type)) limit with
      | Return rs => Some rs
      | Raise _ => None
      end
  end.

(** ** Data of the end-to-end examples *)

(** A dict display. *)
Definition dict (l : list (string * pyval)) : record := list_to_map l.

(** Example 1: the same identifier in the songs and in the videos
    results. *)
Definition ex1_songs : list record :=
  [dict [("videoId", PStr "AAAAAAAAAAA"); ("resultType", PStr "song");
         ("title", PStr "T1");
         ("artists", PList [PDict (dict [("name", PStr "X")])])]].

Definition ex1_videos : list record :=
  [dict [("videoId", PStr "AAAAAAAAAAA"); ("resultType", PStr "video");
         ("title", PStr "T1v")]].

Definition ex1_search : search_provider :=
  λ q filter limit,
    match filter with
    | Some _ => Return ex1_songs
    | None => Return ex1_videos
    end.

(** Example 3: a record with a channel and no identifier, then a record
    with an identifier and neither artists nor channel. *)
Definition ex3_raw : list record :=
  [dict [("channel", PList [PDict (dict [("name", PStr "Chan1")])])];
   dict [("videoId", PStr "BBBBBBBBBBB")]].

(** A record whose second artist entry carries no name. *)
Definition nameless_credit : record :=
  dict [("videoId", PStr "EEEEEEEEEEE");
        ("artists", PList [PDict (dict [("name", PStr "A")]);
                           PDict (dict [("id", PStr "UC1")])])].

(** A provider whose only record bears no identifier. *)
Definition anonymous_search : search_provider :=
  λ q filter limit,
    Return [dict [("channel", PList [PDict (dict [("name", PStr "Chan1")])])]].

(** A provider that finds nothing, one that is down, and one whose two
    result sets share no identifier. *)
Definition empty_search : search_provider := λ q filter limit, Return [].

Definition failing_search : search_provider :=
  λ q filter limit, Raise (ProviderError "connection reset").

Definition videos_down_search : search_provider :=
  λ q filter limit,
    match filter with
    | Some _ => Return ex1_songs
    | None => Raise (ProviderError "connection reset")
    end.

Definition disjoint_search : search_provider :=
  λ q filter limit,
    match filter with
    | Some _ => Return [dict [("videoId", PStr "AAAAAAAAAAA")];
                        dict [("videoId", PStr "BBBBBBBBBBB")]]
    | None => Return [dict [("videoId", PStr "CCCCCCCCCCC")];
                      dict [("videoId", PStr "DDDDDDDDDDD")]]
    end.

(** Result sets of any size in which no identifier is repeated: the
    identifier of the n-th record of the set tagged [c] is [c] followed by
    the decimal digits of n. *)
Definition tagged_id (c : Ascii.ascii) (n : nat) : string := String c (pretty n).

Definition tagged_record (c : Ascii.ascii) (n : nat) : record :=
  dict [("videoId", PStr (tagged_id c n))].

Definition tagged_records (c : Ascii.ascii) (size : nat) : list record :=
  tagged_record c <$> seq 0 size.

Definition tagged_search (size : nat) : search_provider :=
  λ q filter limit,
    match filter with
    | Some _ => Return (tagged_records "s"%char size)
    | None => Return (tagged_records "v"%char size)
    end.

(** Example 2 and its neighbours: a listing with three audio-only mp4
    streams, a listing without audio-only stream, a provider that raises,
    and an extraction that outlasts the deadline. *)
Definition mk_stream (audio video : bool) (subtype : string) (abr : option N)
    (url : string) : Stream :=
  {| includes_audio_track := audio; includes_video_track := video;
     subtype := subtype; abr := abr; url := url |}.

Definition song_meta : pyval :=
  PDict (dict [("videoDetails",
    PDict (dict [("title", PStr "T1"); ("author", PStr "X");
                 ("thumbnail",
                  PDict (dict [("thumbnails",
                    PList [PDict (dict [("url", PStr "small.jpg")]);
                           PDict (dict [("url", PStr "large.jpg")])])]))]))]).

Definition up_audio : upstream :=
  {| yt_streams := λ _, Return [mk_stream true false "mp4" (Some 128%N) "u128";
                               mk_stream true false "mp4" (Some 48%N) "u48";
                               mk_stream true false "webm" (Some 160%N) "u160";
                               mk_stream true true "mp4" (Some 192%N) "u192";
                               mk_stream true false "mp4" (Some 128%N) "u128b"];
     elapsed := λ _, 1200;
     ytm_get_song := λ _, Return song_meta |}.

Definition up_no_audio : upstream :=
  {| yt_streams := λ _, Return [mk_stream true true "mp4" (Some 192%N) "u192";
                               mk_stream false true "mp4" None "v720"];
     elapsed := λ _, 900;
     ytm_get_song := λ _, Return song_meta |}.

Definition up_broken : upstream :=
  {| yt_streams := λ _, Raise (ProviderError "video unavailable");
     elapsed := λ _, 300;
     ytm_get_song := λ _, Return song_meta |}.

Definition up_slow : upstream :=
  {| yt_streams := yt_streams up_audio;
     elapsed := λ _, 8001;
     ytm_get_song := λ _, Return song_meta |}.

(** A stand-in for Python's string hash. *)
Definition length_hash (s : string) : Z := Z.of_nat (String.length s).

(** ** Further vocabulary and data *)

(** A value that cannot be a member of a set: a list or a dict.  (The
    empty ones are falsy and do not reach the membership test.) *)
Definition unhashable (v : pyval) : bool :=
  match v with
  | PList _ | PDict _ => truthy v
  | _ => false
  end.

(** A raw list with a record whose identifier is a list. *)
Definition unhashable_raw : list record :=
  [dict [("videoId", PStr "AAAAAAAAAAA")];
   dict [("videoId", PList [PStr "BBBBBBBBBBB"])]].

Definition unhashable_search : search_provider :=
  λ q filter limit, Return unhashable_raw.

(** A record that repeats the identifier of example 1 and whose artist
    name is [None]. *)
Definition broken_duplicate : record :=
  dict [("videoId", PStr "AAAAAAAAAAA");
        ("artists", PList [PDict (dict [("name", PNone)])])].

(** A listing whose audio-only mp4 streams carry no bitrate. *)
Definition up_no_bitrate : upstream :=
  {| yt_streams := λ _, Return [mk_stream true false "mp4" None "a1";
                               mk_stream true false "webm" (Some 160%N) "u160"];
     elapsed := λ _, 700;
     ytm_get_song := λ _, Return song_meta |}.

(** The cache holds at most [maxsize] items, under different keys. *)
Definition cache_ok (c : TTLCache.t) : Prop :=
  NoDup (TTLCache.key <$> TTLCache.links c)
  ∧ (length (TTLCache.links c) ≤ TTLCache.maxsize c)%nat.

(** A catalogue that is down, and metadata without its details. *)
Definition up_meta_down : upstream :=
  {| yt_streams := yt_streams up_audio;
     elapsed := λ _, 1200;
     ytm_get_song := λ _, Raise (ProviderError "connection reset") |}.

Definition up_meta_bare : upstream :=
  {| yt_streams := yt_streams up_audio;
     elapsed := λ _, 1200;
     ytm_get_song := λ _, Return (PDict (dict [("playabilityStatus", PNone)])) |}.

(** An extraction that raises a timeout of its own, in time. *)
Definition up_socket_timeout : upstream :=
  {| yt_streams := λ _, Raise TimeoutError;
     elapsed := λ _, 2500;
     ytm_get_song := λ _, Return song_meta |}.

(** A cache that holds the audio URL of one track. *)
Definition warm_cache : TTLCache.t :=
  {| TTLCache.maxsize := 1000;
     TTLCache.ttl := 300;
     TTLCache.links := [{| TTLCache.key := 11; TTLCache.value := "u128b";
                           TTLCache.expires := 301200 |}] |}.


(** *** The artist line as the loop builds it

    The field that is used is ["artists"] when it holds anything (it is
    there, and is neither [None] nor empty), ["channel"] otherwise; each
    of its entries that is a dict gives a name, its own or "Unknown" when
    it has none; the line is "Unknown" when there is no such entry. *)
Definition given (field : option pyval) : bool := truthy (default PNone field).

Definition credit_entries (field : option pyval) : list pyval :=
  match field with
  | Some (PList l) => l
  | _ => []
  end.

Definition name_or_unknown (a : pyval) : option string :=
  match a with
  | PDict d => Some (match d !! "name" with
                     | Some (PStr n) => n
                     | _ => "Unknown"
                     end)
  | _ => None
  end.

Definition artist_line (item : record) : string :=
  let field := if given (item !! "artists") then item !! "artists"
               else item !! "channel" in
  match omap name_or_unknown (credit_entries field) with
  | [] => "Unknown"
  | ns => String.concat ", " ns
  end.

(** A record whose artists hold one entry without name, beside a channel
    that has one. *)
Definition nameless_artist : record :=
  dict [("videoId", PStr "FFFFFFFFFFF");
        ("artists", PList [PDict (dict [("id", PStr "UC1")])]);
        ("channel", PList [PDict (dict [("name", PStr "Chan1")])])].

(** * Properties *)

(** ** Thumbnail helper: properties *)





(** ** Search normalisation: properties *)

Lemma identifier_Some item v :
  identifier item = Some v →
  dict_get item "videoId" = PStr v ∧ truthy (PStr v) = true.
Proof.
  unfold identifier, dict_get. intros H.
  destruct (item !! "videoId") as [[| s | |]|]; try discriminate.
  destruct (decide (s = "")) as [|Hne]; [discriminate|].
  injection H as <-. split; [reflexivity|].
  simpl. destruct (String.eqb_spec s ""); [contradiction|reflexivity].
Qed.

Lemma identifier_None item :
  str_or_absent (item !! "videoId") = true →
  identifier item = None →
  truthy (dict_get item "videoId") = false.
Proof.
  unfold identifier, dict_get. intros Ht H.
  destruct (item !! "videoId") as [[| s | |]|]; try discriminate; try reflexivity.
  destruct (decide (s = "")) as [->|]; [reflexivity|discriminate].
Qed.

(** *** One entry *)

Lemma str_items_fmap (ns : list string) : str_items (PStr <$> ns) = Return ns.
Proof.
  induction ns as [|n ns IH]; [reflexivity|].
  rewrite fmap_cons. cbn [str_items]. rewrite IH. reflexivity.
Qed.

Lemma str_items_artist_names (l : list pyval) :
  forallb name_is_str l = true → ∃ ss, str_items (artist_names l) = Return ss.
Proof.
  induction l as [|a l IH]; intros H; [by exists []|].
  apply andb_prop in H as [Ha Hl]. destruct (IH Hl) as [ss Hss].
  destruct a as [| s | l0 | d]; simpl; eauto.
  unfold dict_get_default. simpl in Ha.
  destruct (d !! "name") as [[| n | |]|]; try discriminate; simpl;
    rewrite Hss; simpl; eauto.
Qed.

Lemma artist_names_strs {A} (f : A → string) (l : list A) :
  artist_names ((λ x, PStr (f x)) <$> l) = [].
Proof. induction l as [|x l IH]; [reflexivity|exact IH]. Qed.

Lemma artist_names_cons (a : pyval) (l : list pyval) :
  artist_names (a :: l)
  = match a with
    | PDict d => dict_get_default d "name" (PStr "Unknown") :: artist_names l
    | _ => artist_names l
    end.
Proof. by destruct a. Qed.

Lemma names_from_cons (a : pyval) (l : list pyval) :
  names_from (Some (PList (a :: l)))
  = match entry_name a with
    | Some n => n :: names_from (Some (PList l))
    | None => names_from (Some (PList l))
    end.
Proof. reflexivity. Qed.

Lemma artist_names_named (l : list pyval) :
  forallb named l = true →
  artist_names l = PStr <$> names_from (Some (PList l))
  ∧ length (names_from (Some (PList l))) = length l.
Proof.
  induction l as [|a l IH]; intros H; [done|].
  apply andb_prop in H as [Ha Hl]. destruct (IH Hl) as [IH1 IH2].
  rewrite artist_names_cons, names_from_cons.
  destruct a as [| s | l0 | d]; try discriminate.
  unfold named in Ha. unfold dict_get_default, entry_name.
  destruct (d !! "name") as [[| n | |]|]; try discriminate.
  rewrite fmap_cons, IH1. cbn [default length]. by rewrite IH2.
Qed.

(** The kind of an entry, for a record whose result type is a string or
    is absent. *)
Lemma kind_declared item :
  str_or_absent (item !! "resultType") = true →
  py_or (dict_get item "resultType") (PStr "video")
  = PStr (default "video" (declared_type item)).
Proof.
  unfold py_or, dict_get, declared_type. intros H.
  destruct (item !! "resultType") as [[| k | |]|]; try discriminate; try reflexivity.
  simpl. destruct (decide (k = "")) as [->|Hne]; [reflexivity|].
  destruct (String.eqb_spec k ""); [contradiction|reflexivity].
Qed.

(** What iterating over the credits yields. *)
Lemma iter_credits (v : pyval) :
  truthy v = true ∨ v = PList [] →
  ∃ src, py_iter v = Return src
         ∧ (match v with PList l => src = l | _ => artist_names src = [] end).
Proof.
  intros H. destruct v as [| s | l | d]; simpl.
  - destruct H; discriminate.
  - eexists; split; [reflexivity|].
    apply (artist_names_strs (λ c, String c EmptyString)).
  - eauto.
  - eexists; split; [reflexivity|]. apply (artist_names_strs id).
Qed.

Lemma credits_truthy (a c : pyval) :
  let v := py_or (py_or a c) (PList []) in truthy v = true ∨ v = PList [].
Proof.
  unfold py_or. destruct (truthy a) eqn:Ha.
  - rewrite Ha. by left.
  - destruct (truthy c) eqn:Hc; [by left|by right].
Qed.

Lemma names_are_str_credits (a c : option pyval) :
  names_are_str a = true → names_are_str c = true →
  match py_or (py_or (default PNone a) (default PNone c)) (PList []) with
  | PList l => forallb name_is_str l = true
  | _ => True
  end.
Proof.
  intros Ha Hc. unfold py_or.
  destruct (truthy (default PNone a)) eqn:Ta.
  - rewrite Ta. destruct a as [[| | l |]|]; simpl in *; done.
  - destruct (truthy (default PNone c)) eqn:Tc; [|done].
    destruct c as [[| | l |]|]; simpl in *; done.
Qed.

Lemma make_entry_returns item v :
  well_typed item = true → ∃ r, make_entry item v = Return r.
Proof.
  unfold well_typed. intros H.
  apply andb_prop in H as [H Hc]. apply andb_prop in H as [H Ha].
  apply andb_prop in H as [_ Hk].
  unfold make_entry. rewrite (kind_declared _ Hk).
  pose proof (names_are_str_credits _ _ Ha Hc) as Hstr.
  pose proof (credits_truthy (dict_get item "artists") (dict_get item "channel")) as Ht.
  unfold dict_get in *. simpl in Ht.
  destruct (iter_credits _ Ht) as (src & -> & Hsrc). simpl.
  destruct (py_or _ (PList [])) as [| s | l | d].
  - rewrite Hsrc. simpl. eauto.
  - rewrite Hsrc. simpl. eauto.
  - subst src. destruct (str_items_artist_names l Hstr) as [ss Hss].
    destruct (artist_names l) eqn:E; simpl; [eauto|].
    unfold py_join. rewrite Hss. simpl. eauto.
  - rewrite Hsrc. simpl. eauto.
Qed.

Lemma credit_list_cases (f : option pyval) :
  credit_list f = true →
  (truthy (default PNone f) = false ∧ names_from f = [])
  ∨ (∃ l n ns, default PNone f = PList l ∧ truthy (PList l) = true
               ∧ names_from f = n :: ns
               ∧ artist_names l = PStr <$> (n :: ns)).
Proof.
  destruct f as [[| | l |]|]; intros Hf; try discriminate; [|by left].
  destruct (artist_names_named l Hf) as [E1 E2].
  destruct l as [|a l]; [by left|]. right.
  destruct (names_from (Some (PList (a :: l)))) as [|n ns] eqn:E; [discriminate|].
  exists (a :: l), n, ns. done.
Qed.

(** The list the comprehension runs over, and the names it collects, for
    a record with well-shaped credits. *)
Lemma credits_credited item :
  credited item = true →
  ∃ l, py_or (py_or (dict_get item "artists") (dict_get item "channel")) (PList [])
       = PList l
       ∧ artist_names l
         = PStr <$> (match names_from (item !! "artists") with
                     | [] => names_from (item !! "channel")
                     | ns => ns
                     end).
Proof.
  unfold credited, py_or, dict_get. intros H. apply andb_prop in H as [Ha Hc].
  destruct (credit_list_cases _ Ha) as [[Ta ->]|(la & n & ns & Ea & Ta & -> & Na)].
  - rewrite Ta.
    destruct (credit_list_cases _ Hc) as [[Tc ->]|(lc & n & ns & Ec & Tc & -> & Nc)].
    + rewrite Tc. by exists [].
    + rewrite Ec, !Tc. by exists lc.
  - rewrite Ea, !Ta. by exists la.
Qed.

(** The entry of a record that has the provider's shape, field by field in
    the words of the design document. *)
Lemma make_entry_spec item v :
  str_or_absent (item !! "resultType") = true →
  credited item = true →
  make_entry item v
  = Return {| sr_title := default (PStr "No title") (item !! "title");
              sr_artist := spec_artist item;
              sr_thumbnail := thumbnail_url v (default "video" (declared_type item));
              sr_videoId := v;
              sr_type := default "video" (declared_type item) |}.
Proof.
  intros Hk Hc. unfold make_entry. rewrite (kind_declared _ Hk).
  destruct (credits_credited _ Hc) as (l & -> & Hl).
  cbn [py_iter mbind outcome_bind]. rewrite Hl.
  unfold spec_artist, dict_get_default.
  destruct (names_from (item !! "artists")) as [|n ns].
  - destruct (names_from (item !! "channel")) as [|n ns]; [reflexivity|].
    rewrite fmap_cons. unfold py_join. rewrite <- fmap_cons, str_items_fmap.
    reflexivity.
  - rewrite fmap_cons. unfold py_join. rewrite <- fmap_cons, str_items_fmap.
    reflexivity.
Qed.

Lemma make_entry_videoId item v r : make_entry item v = Return r → sr_videoId r = v.
Proof.
  unfold make_entry. intros H.
  destruct (py_iter _) as [src|]; [|discriminate]. cbn [mbind outcome_bind] in H.
  destruct (match artist_names src with [] => _ | _ => _ end) as [artist|];
    [|discriminate].
  cbn [mbind outcome_bind] in H.
  destruct (py_or _ _); try discriminate. by injection H as <-.
Qed.

(** *** The loop *)

Lemma first_bearing_cons_ne v item raw :
  identifier item ≠ Some v → first_bearing v (item :: raw) = first_bearing v raw.
Proof.
  intros H. unfold first_bearing. cbn [List.find].
  by rewrite bool_decide_eq_false_2.
Qed.

Lemma first_bearing_cons_eq v item raw :
  identifier item = Some v → first_bearing v (item :: raw) = Some item.
Proof.
  intros H. unfold first_bearing. cbn [List.find].
  by rewrite bool_decide_eq_true_2.
Qed.

Lemma filter_unseen_cons_seen (seen : gset string) v (ids : list string) :
  v ∈ seen →
  filter (λ w, w ∉ seen) (v :: filter (λ w, w ≠ v) ids) = filter (λ w, w ∉ seen) ids.
Proof.
  intros Hv. rewrite filter_cons_False by (intros ?; contradiction).
  rewrite list_filter_filter. apply list_filter_iff.
  intros w. split; [tauto|]. intros Hw. split; [done|]. by intros ->.
Qed.

Lemma filter_unseen_cons_new (seen : gset string) v (ids : list string) :
  v ∉ seen →
  filter (λ w, w ∉ seen) (v :: filter (λ w, w ≠ v) ids)
  = v :: filter (λ w, w ∉ {[v]} ∪ seen) ids.
Proof.
  intros Hv. rewrite filter_cons_True by done. f_equal.
  rewrite list_filter_filter. apply list_filter_iff.
  intros w. rewrite not_elem_of_union, not_elem_of_singleton. tauto.
Qed.

(** The entries that the loop appends, from any state of its two
    accumulators. *)
Lemma normalize_loop_spec (raw : list record) :
  forallb well_typed raw = true →
  ∀ results seen, ∃ entries,
    normalize_loop raw results seen = Return (results ++ entries)
    ∧ sr_videoId <$> entries
      = filter (λ v, v ∉ seen) (first_occurrences (omap identifier raw))
    ∧ Forall (λ r, ∃ item, first_bearing (sr_videoId r) raw = Some item
                           ∧ make_entry item (sr_videoId r) = Return r) entries.
Proof.
  induction raw as [|item raw IH]; intros Hwt results seen.
  { exists []. by rewrite app_nil_r. }
  cbn [forallb] in Hwt. apply andb_prop in Hwt as [Hitem Hraw].
  specialize (IH Hraw).
  assert (Hlater : ∀ (seen' : gset string) entries,
    (∀ w, w ∉ seen' → identifier item ≠ Some w) →
    sr_videoId <$> entries
      = filter (λ v, v ∉ seen') (first_occurrences (omap identifier raw)) →
    Forall (λ r, ∃ item', first_bearing (sr_videoId r) raw = Some item'
                          ∧ make_entry item' (sr_videoId r) = Return r) entries →
    Forall (λ r, ∃ item', first_bearing (sr_videoId r) (item :: raw) = Some item'
                          ∧ make_entry item' (sr_videoId r) = Return r) entries).
  { intros seen' entries Hne Hids Hall.
    apply Forall_forall. intros r Hr.
    rewrite Forall_forall in Hall. destruct (Hall r Hr) as (item' & Hf & He).
    exists item'. split; [|done]. rewrite first_bearing_cons_ne; [done|].
    apply Hne.
    assert (Hin : sr_videoId r ∈ sr_videoId <$> entries)
      by (apply list_elem_of_fmap; eauto).
    rewrite Hids in Hin. by apply list_elem_of_filter in Hin as [? _]. }
  cbn [normalize_loop omap list_omap].
  destruct (identifier item) as [v|] eqn:Hid.
  - destruct (identifier_Some _ _ Hid) as [-> Htr]. rewrite Htr. cbn [negb].
    cbn [first_occurrences].
    destruct (decide (v ∈ seen)) as [Hin|Hnin].
    + rewrite bool_decide_eq_true_2 by done.
      destruct (IH results seen) as (entries & Hrun & Hids & Hall).
      exists entries. split; [done|]. split.
      * by rewrite filter_unseen_cons_seen.
      * apply (Hlater seen); [|done..]. intros w Hw [= ->]. contradiction.
    + rewrite bool_decide_eq_false_2 by done.
      destruct (make_entry_returns item v Hitem) as [e He]. rewrite He.
      cbn [mbind outcome_bind].
      destruct (IH (results ++ [e]) ({[v]} ∪ seen)) as (entries & Hrun & Hids & Hall).
      exists (e :: entries). split; [by rewrite Hrun, <- app_assoc|]. split.
      * rewrite filter_unseen_cons_new by done. rewrite fmap_cons, Hids.
        by rewrite (make_entry_videoId _ _ _ He).
      * constructor.
        -- exists item. rewrite (make_entry_videoId _ _ _ He).
           split; [by apply first_bearing_cons_eq|done].
        -- apply (Hlater ({[v]} ∪ seen)); [|done..].
           intros w Hw [= ->]. apply Hw, elem_of_union_l, elem_of_singleton_2.
           reflexivity.
  - unfold well_typed in Hitem. apply andb_prop in Hitem as [Hitem _].
    apply andb_prop in Hitem as [Hitem _]. apply andb_prop in Hitem as [Hvid _].
    rewrite (identifier_None _ Hvid Hid). cbn [negb].
    destruct (IH results seen) as (entries & Hrun & Hids & Hall).
    exists entries. split; [done|]. split; [done|].
    apply (Hlater seen); [|done..]. intros w _. discriminate.
Qed.

(** *** First occurrences *)

Lemma filter_all {A} (P : A → Prop) `{∀ x, Decision (P x)} (l : list A) :
  Forall P l → filter P l = l.
Proof.
  induction 1 as [|x l Hx Hl IH]; [done|].
  by rewrite filter_cons_True, IH.
Qed.

Lemma elem_of_first_occurrences (v : string) (ids : list string) :
  v ∈ first_occurrences ids ↔ v ∈ ids.
Proof.
  induction ids as [|w ids IH]; [done|]. cbn [first_occurrences].
  rewrite !elem_of_cons, list_elem_of_filter, IH.
  destruct (decide (v = w)); tauto.
Qed.

Lemma NoDup_first_occurrences (ids : list string) : NoDup (first_occurrences ids).
Proof.
  induction ids as [|w ids IH]; [constructor|]. cbn [first_occurrences].
  constructor; [|by apply NoDup_filter].
  rewrite list_elem_of_filter. tauto.
Qed.

Lemma first_occurrences_NoDup (ids : list string) :
  NoDup ids → first_occurrences ids = ids.
Proof.
  induction 1 as [|w ids Hw Hnd IH]; [done|]. cbn [first_occurrences].
  rewrite IH. f_equal. apply filter_all, Forall_forall.
  intros x Hx ->. contradiction.
Qed.

Lemma length_first_occurrences (ids : list string) :
  length (first_occurrences ids) = size (list_to_set ids : gset string).
Proof.
  rewrite <- (size_list_to_set (C := gset string))
    by apply NoDup_first_occurrences.
  f_equal. apply set_eq. intros v.
  by rewrite !elem_of_list_to_set, elem_of_first_occurrences.
Qed.

Lemma first_bearing_Some v raw item :
  first_bearing v raw = Some item → item ∈ raw ∧ identifier item = Some v.
Proof.
  unfold first_bearing. intros H. apply find_some in H as [Hin Hid].
  split; [by apply list_elem_of_In|]. by apply bool_decide_eq_true_1 in Hid.
Qed.

Lemma elem_of_identifiers v (raw : list record) :
  v ∈ omap identifier raw ↔ ∃ item, item ∈ raw ∧ identifier item = Some v.
Proof. apply list_elem_of_omap. Qed.

(** The handler runs the loop on the merged list, unless that is empty. *)
Lemma search_tracks_merged ytm_search q limit type raw :
  merged ytm_search q limit type = Some raw →
  (search_tracks ytm_search q limit type).2
  = match raw with
    | [] => Raise (HTTPException 404 "No results")
    | _ => normalize_loop raw [] ∅
    end.
Proof.
  unfold merged, search_tracks.
  destruct type;
    repeat match goal with
           | |- context [ytm_search ?a ?b ?c] =>
               destruct (ytm_search a b c) eqn:?
           end;
    intros [= <-] || discriminate; reflexivity.
Qed.

(** C1. Take the raw list of a request: the songs results followed by the
    videos results for mode "all", the single result set otherwise, with
    records of the provider's types.  The handler runs the normalisation
    loop on it (unless it is empty), and the loop returns exactly one
    entry per distinct non-empty identifier, in the order in which the
    identifiers first occur; so there are as many entries as distinct
    identifiers, and a record without identifier contributes none.  Each
    entry is the one computed from the FIRST record bearing its
    identifier. *)
Theorem normalization_keeps_first_occurrences
    (ytm_search : search_provider) (q : string) (limit : Z)
    (type : search_type) (raw : list record) :
  merged ytm_search q limit type = Some raw →
  forallb well_typed raw = true →
  (search_tracks ytm_search q limit type).2
  = match raw with
    | [] => Raise (HTTPException 404 "No results")
    | _ => normalize_loop raw [] ∅
    end
  ∧ ∃ results,
      normalize_loop raw [] ∅ = Return results
      ∧ sr_videoId <$> results = first_occurrences (omap identifier raw)
      ∧ NoDup (sr_videoId <$> results)
      ∧ (∀ v, v ∈ sr_videoId <$> results
              ↔ ∃ item, item ∈ raw ∧ identifier item = Some v)
      ∧ length results = size (list_to_set (omap identifier raw) : gset string)
      ∧ Forall (λ r, ∃ item,
                  first_bearing (sr_videoId r) raw = Some item
                  ∧ make_entry item (sr_videoId r) = Return r) results.
Proof.
  intros Hm Hwt. split; [by apply search_tracks_merged|].
  destruct (normalize_loop_spec raw Hwt [] ∅) as (results & Hrun & Hids & Hall).
  rewrite app_nil_l in Hrun.
  rewrite filter_all in Hids
    by (apply Forall_forall; intros v _; apply not_elem_of_empty).
  exists results. split; [done|]. split; [done|].
  split; [rewrite Hids; apply NoDup_first_occurrences|].
  split; [intros v; by rewrite Hids, elem_of_first_occurrences, elem_of_identifiers|].
  split; [|done].
  rewrite <- length_first_occurrences, <- Hids. by rewrite length_fmap.
Qed.

Lemma normalization_keeps_first_occurrences_witness :
  merged ex1_search "test" 10 all = Some (ex1_songs ++ ex1_videos)
  ∧ forallb well_typed (ex1_songs ++ ex1_videos) = true
  ∧ ∃ results,
      normalize_loop (ex1_songs ++ ex1_videos) [] ∅ = Return results
      ∧ sr_videoId <$> results
        = first_occurrences (omap identifier (ex1_songs ++ ex1_videos)).
Proof.
  split; [reflexivity|]. split; [vm_compute; reflexivity|].
  destruct (normalization_keeps_first_occurrences ex1_search "test" 10 all
              (ex1_songs ++ ex1_videos))
    as (_ & results & Hrun & Hids & _); [reflexivity|vm_compute; reflexivity|].
  exists results. split; assumption.
Defined.

(** End-to-end example 1: one entry, that of the songs result. *)
Example search_example_1 :
  search_tracks ex1_search "test" 10 all
  = ([Search "test" (Some "songs") 10; Search "test" None 10],
     Return [{| sr_title := PStr "T1";
                sr_artist := "X";
                sr_thumbnail := "https://img.youtube.com/vi/AAAAAAAAAAA/maxresdefault.jpg";
                sr_videoId := "AAAAAAAAAAA";
                sr_type := "song" |}]).
Proof. vm_compute. reflexivity. Qed.

(** *** The fields of an entry *)

Lemma make_entry_fields item v r :
  str_or_absent (item !! "resultType") = true →
  make_entry item v = Return r →
  sr_type r = default "video" (declared_type item)
  ∧ sr_title r = default (PStr "No title") (item !! "title")
  ∧ sr_thumbnail r = thumbnail_url v (sr_type r).
Proof.
  intros Hk. unfold make_entry. rewrite (kind_declared _ Hk). intros H.
  destruct (py_iter _) as [src|]; [|discriminate]. cbn [mbind outcome_bind] in H.
  destruct (match artist_names src with [] => _ | _ => _ end) as [artist|];
    [|discriminate].
  cbn [mbind outcome_bind] in H. by injection H as <-.
Qed.

Lemma well_typed_resultType item :
  well_typed item = true → str_or_absent (item !! "resultType") = true.
Proof.
  unfold well_typed. intros H.
  apply andb_prop in H as [H _]. apply andb_prop in H as [H _].
  by apply andb_prop in H as [_ H].
Qed.

Lemma forallb_elem_of {A} (f : A → bool) (l : list A) (x : A) :
  forallb f l = true → x ∈ l → f x = true.
Proof.
  intros H Hx. rewrite forallb_forall in H. by apply H, list_elem_of_In.
Qed.

Lemma artist_names_name_or_unknown (l : list pyval) :
  forallb name_is_str l = true →
  artist_names l = PStr <$> omap name_or_unknown l.
Proof.
  induction l as [|a l IH]; intros H; [done|].
  apply andb_prop in H as [Ha Hl]. rewrite artist_names_cons.
  cbn [omap list_omap].
  change (list_omap _ _ name_or_unknown l) with (omap name_or_unknown l).
  destruct a as [| s | l0 | d]; cbn [name_or_unknown]; try by apply IH.
  rewrite fmap_cons, (IH Hl). unfold dict_get_default.
  unfold name_is_str in Ha.
  by destruct (d !! "name") as [[| n | |]|].
Qed.

(** The list that the comprehension runs over holds, as dicts, the
    entries of the field that is used. *)
Lemma credits_entries item :
  ∃ src,
    py_iter (py_or (py_or (dict_get item "artists") (dict_get item "channel"))
                   (PList [])) = Return src
    ∧ artist_names src
      = artist_names (credit_entries (if given (item !! "artists")
                                      then item !! "artists"
                                      else item !! "channel")).
Proof.
  pose proof (credits_truthy (dict_get item "artists") (dict_get item "channel"))
    as Ht.
  cbn zeta in Ht. destruct (iter_credits _ Ht) as (src & Hsrc & Hnames).
  exists src. split; [done|]. revert Hnames.
  unfold py_or, given, dict_get.
  destruct (truthy (default PNone (item !! "artists"))) eqn:Ta.
  - rewrite Ta. destruct (item !! "artists") as [[| | l |]|]; cbn; by intros ->.
  - destruct (truthy (default PNone (item !! "channel"))) eqn:Tc.
    + destruct (item !! "channel") as [[| | l |]|]; cbn; by intros ->.
    + destruct (item !! "channel") as [[| | l |]|]; cbn in *;
        try (by intros ->). destruct l; [by intros ->|done].
Qed.

Lemma names_are_str_entries item :
  well_typed item = true →
  forallb name_is_str (credit_entries (if given (item !! "artists")
                                       then item !! "artists"
                                       else item !! "channel")) = true.
Proof.
  unfold well_typed. intros H.
  apply andb_prop in H as [H Hc]. apply andb_prop in H as [_ Ha].
  destruct (given (item !! "artists")).
  - by destruct (item !! "artists") as [[| | l |]|].
  - by destruct (item !! "channel") as [[| | l |]|].
Qed.

(** The artist of an entry, for a record of the provider's types. *)
Lemma make_entry_artist item v r :
  well_typed item = true →
  make_entry item v = Return r → sr_artist r = artist_line item.
Proof.
  intros Hwt. unfold make_entry, artist_line.
  destruct (credits_entries item) as (src & Hsrc & Hnames).
  rewrite Hsrc. cbn [mbind outcome_bind]. cbn zeta. rewrite Hnames.
  rewrite (artist_names_name_or_unknown _ (names_are_str_entries _ Hwt)).
  destruct (omap name_or_unknown _) as [|n ns].
  - cbn [fmap list_fmap mbind outcome_bind].
    destruct (py_or _ (PStr "video")); try discriminate. by intros [= <-].
  - rewrite fmap_cons. unfold py_join. rewrite <- fmap_cons, str_items_fmap.
    cbn [mbind outcome_bind].
    destruct (py_or _ (PStr "video")); try discriminate. by intros [= <-].
Qed.

(** C7. Normalisation returns one entry for every surviving record, that
    is for the first record to bear each identifier, and in that entry:
    the kind is the declared result type of the record, "video" when
    there is none; the title is that of the record, "No title" when the
    record has none; the thumbnail is the thumbnail helper's URL for
    (identifier, kind); the artist is the comma-joined list of the names
    of the entries of "artists", or of "channel" when "artists" is absent
    or empty, an entry without name counting as "Unknown", and it is the
    literal "Unknown" when the field used has no entry.  Where the
    credits have the provider's shape, that is the names under "artists",
    else those under "channel", else "Unknown". *)
Theorem normalization_derived_fields (raw : list record) :
  forallb well_typed raw = true →
  ∃ results,
    normalize_loop raw [] ∅ = Return results
    ∧ sr_videoId <$> results = first_occurrences (omap identifier raw)
    ∧ Forall (λ r, ∃ item,
                first_bearing (sr_videoId r) raw = Some item
                ∧ sr_type r = default "video" (declared_type item)
                ∧ sr_title r = default (PStr "No title") (item !! "title")
                ∧ sr_thumbnail r = thumbnail_url (sr_videoId r) (sr_type r)
                ∧ sr_artist r = artist_line item
                ∧ (credited item = true → sr_artist r = spec_artist item))
             results.
Proof.
  intros Hwt.
  destruct (normalize_loop_spec raw Hwt [] ∅) as (results & Hrun & Hids & Hall).
  rewrite app_nil_l in Hrun.
  rewrite filter_all in Hids
    by (apply Forall_forall; intros v _; apply not_elem_of_empty).
  exists results. split; [done|]. split; [done|].
  eapply Forall_impl; [exact Hall|]. intros r (item & Hfirst & Hentry).
  exists item. split; [done|].
  destruct (first_bearing_Some _ _ _ Hfirst) as [Hin _].
  pose proof (forallb_elem_of _ _ _ Hwt Hin) as Hitem.
  pose proof (well_typed_resultType _ Hitem) as Hk.
  destruct (make_entry_fields _ _ _ Hk Hentry) as (Htype & Htitle & Hthumb).
  repeat (split; [done|]).
  split; [by apply (make_entry_artist _ _ _ Hitem Hentry)|].
  intros Hc. rewrite (make_entry_spec _ _ Hk Hc) in Hentry.
  by injection Hentry as <-.
Qed.

Lemma normalization_derived_fields_witness :
  forallb well_typed (ex3_raw ++ [nameless_credit]) = true
  ∧ ∃ results,
      normalize_loop (ex3_raw ++ [nameless_credit]) [] ∅ = Return results
      ∧ sr_videoId <$> results = ["BBBBBBBBBBB"; "EEEEEEEEEEE"]
      ∧ Forall (λ r, ∃ item,
                  first_bearing (sr_videoId r) (ex3_raw ++ [nameless_credit])
                  = Some item
                  ∧ sr_type r = default "video" (declared_type item)
                  ∧ sr_title r = default (PStr "No title") (item !! "title")
                  ∧ sr_thumbnail r = thumbnail_url (sr_videoId r) (sr_type r)
                  ∧ sr_artist r = artist_line item
                  ∧ (credited item = true → sr_artist r = spec_artist item))
               results.
Proof.
  split; [vm_compute; reflexivity|].
  apply (normalization_derived_fields (ex3_raw ++ [nameless_credit])).
  vm_compute. reflexivity.
Defined.

(** The artist line of the design document fails on the code for an
    artist entry that has no name: the loop lists it as "Unknown", beside
    the names of the other entries and instead of the names of the
    channel. *)
Lemma artist_of_nameless_entries :
  normalize_loop [nameless_credit; nameless_artist] [] ∅
  = Return [{| sr_title := PStr "No title";
               sr_artist := "A, Unknown";
               sr_thumbnail := "https://img.youtube.com/vi/EEEEEEEEEEE/hqdefault.jpg";
               sr_videoId := "EEEEEEEEEEE";
               sr_type := "video" |};
            {| sr_title := PStr "No title";
               sr_artist := "Unknown";
               sr_thumbnail := "https://img.youtube.com/vi/FFFFFFFFFFF/hqdefault.jpg";
               sr_videoId := "FFFFFFFFFFF";
               sr_type := "video" |}]
  ∧ spec_artist nameless_credit = "A"
  ∧ spec_artist nameless_artist = "Chan1"
  ∧ ¬ (∀ raw results r item,
         normalize_loop raw [] ∅ = Return results →
         r ∈ results →
         first_bearing (sr_videoId r) raw = Some item →
         sr_artist r = spec_artist item).
Proof.
  split; [vm_compute; reflexivity|]. split; [vm_compute; reflexivity|].
  split; [vm_compute; reflexivity|].
  intros Hclaim.
  specialize (Hclaim [nameless_credit]
                [{| sr_title := PStr "No title";
                    sr_artist := "A, Unknown";
                    sr_thumbnail := "https://img.youtube.com/vi/EEEEEEEEEEE/hqdefault.jpg";
                    sr_videoId := "EEEEEEEEEEE";
                    sr_type := "video" |}]
                {| sr_title := PStr "No title";
                   sr_artist := "A, Unknown";
                   sr_thumbnail := "https://img.youtube.com/vi/EEEEEEEEEEE/hqdefault.jpg";
                   sr_videoId := "EEEEEEEEEEE";
                   sr_type := "video" |}
                nameless_credit).
  assert (Hfalse : "A, Unknown" = spec_artist nameless_credit).
  { apply Hclaim; [vm_compute; reflexivity|apply list_elem_of_here
                  |vm_compute; reflexivity]. }
  vm_compute in Hfalse. discriminate.
Qed.

(** End-to-end example 3: the record without identifier is dropped, the
    other one gets the artist "Unknown". *)
Example search_example_3 :
  normalize_loop ex3_raw [] ∅
  = Return [{| sr_title := PStr "No title";
               sr_artist := "Unknown";
               sr_thumbnail := "https://img.youtube.com/vi/BBBBBBBBBBB/hqdefault.jpg";
               sr_videoId := "BBBBBBBBBBB";
               sr_type := "video" |}].
Proof. vm_compute. reflexivity. Qed.

(** Outside the provider's shape the loop still answers: an artist entry
    without a name is listed as "Unknown". *)
Example entry_without_name :
  sr_artist <$> default [] (match normalize_loop [nameless_credit] [] ∅ with
                            | Return results => Some results
                            | Raise _ => None
                            end)
  = ["A, Unknown"].
Proof. vm_compute. reflexivity. Qed.

(** ** The search handler: failures and the limit *)

Lemma search_tracks_unavailable ytm_search q limit type :
  merged ytm_search q limit type = None →
  (search_tracks ytm_search q limit type).2
  = Raise (HTTPException 502 "Upstream unavailable").
Proof.
  unfold merged, search_tracks.
  destruct type;
    repeat match goal with
           | |- context [ytm_search ?a ?b ?c] =>
               destruct (ytm_search a b c) eqn:?
           end;
    discriminate || reflexivity.
Qed.

(** C3. A search whose raw upstream result list, as the query or queries
    return it and before the loop runs, is empty fails with 404 "No
    results": it is not a success with an empty list, and it is not the
    502 that a failing upstream query gives. *)
Theorem empty_results_not_found
    (ytm_search : search_provider) (q : string) (limit : Z) (type : search_type) :
  merged ytm_search q limit type = Some [] →
  (search_tracks ytm_search q limit type).2 = Raise (HTTPException 404 "No results")
  ∧ status_of (search_tracks ytm_search q limit type).2 = 404
  ∧ (search_tracks ytm_search q limit type).2 ≠ Return []
  ∧ ∀ ytm_search' q' limit' type',
      merged ytm_search' q' limit' type' = None →
      status_of (search_tracks ytm_search' q' limit' type').2 = 502
      ∧ (search_tracks ytm_search q limit type).2
        ≠ (search_tracks ytm_search' q' limit' type').2.
Proof.
  intros Hm. rewrite (search_tracks_merged _ _ _ _ _ Hm).
  split; [done|]. split; [done|]. split; [done|].
  intros ytm_search' q' limit' type' Hm'.
  rewrite (search_tracks_unavailable _ _ _ _ Hm'). done.
Qed.

Lemma empty_results_not_found_witness :
  merged empty_search "test" 10 all = Some []
  ∧ (search_tracks empty_search "test" 10 all).2
    = Raise (HTTPException 404 "No results")
  ∧ status_of (search_tracks failing_search "test" 10 song).2 = 502.
Proof.
  split; [reflexivity|].
  destruct (empty_results_not_found empty_search "test" 10 all)
    as (H404 & _ & _ & H502); [reflexivity|].
  split; [exact H404|].
  destruct (H502 failing_search "test" 10 song) as [H _]; [reflexivity|exact H].
Defined.

(** A raw list that is empty only after filtering, because none of its
    records bears an identifier, is not answered 404: the response is a
    success with no entry. *)
Lemma filtered_empty_is_not_404 :
  merged anonymous_search "test" 10 song
  = Some [dict [("channel", PList [PDict (dict [("name", PStr "Chan1")])])]]
  ∧ (search_tracks anonymous_search "test" 10 song).2 = Return []
  ∧ status_of (search_tracks anonymous_search "test" 10 song).2 = 200
  ∧ ¬ (∀ (ytm_search : search_provider) q limit type raw,
         merged ytm_search q limit type = Some raw →
         first_occurrences (omap identifier raw) = [] →
         (search_tracks ytm_search q limit type).2
         = Raise (HTTPException 404 "No results")).
Proof.
  split; [reflexivity|]. split; [vm_compute; reflexivity|].
  split; [vm_compute; reflexivity|].
  intros Hclaim.
  specialize (Hclaim anonymous_search "test" 10 song
    [dict [("channel", PList [PDict (dict [("name", PStr "Chan1")])])]]
    eq_refl eq_refl).
  vm_compute in Hclaim. discriminate.
Qed.

(** The 404 is decided on the raw list: records that all lack an
    identifier give a response with no entry. *)
Example search_without_identifiers :
  (search_tracks anonymous_search "test" 10 song).2 = Return [].
Proof. vm_compute. reflexivity. Qed.

(** C5. A search with mode "all" issues two queries, one with the filter
    "songs" and one without filter, each with the request's limit; when
    either of them fails the search fails with 502 "Upstream
    unavailable", whatever the other one returned. *)
Theorem search_all_fails_as_a_whole
    (ytm_search : search_provider) (q : string) (limit : Z) :
  (search_tracks ytm_search q limit all).1
  = [Search q (Some "songs") limit; Search q None limit]
  ∧ ((∃ e, ytm_search q (Some "songs") limit = Raise e
           ∨ ytm_search q None limit = Raise e) →
     (search_tracks ytm_search q limit all).2
     = Raise (HTTPException 502 "Upstream unavailable")
     ∧ ∀ results, (search_tracks ytm_search q limit all).2 ≠ Return results).
Proof.
  split; [reflexivity|]. intros [e He].
  assert (Hm : merged ytm_search q limit all = None).
  { unfold merged. destruct He as [-> | ->]; [done|].
    by destruct (ytm_search q (Some "songs") limit). }
  rewrite (search_tracks_unavailable _ _ _ _ Hm). done.
Qed.

Lemma search_all_fails_as_a_whole_witness :
  videos_down_search "test" (Some "songs") 10 = Return ex1_songs
  ∧ videos_down_search "test" None 10 = Raise (ProviderError "connection reset")
  ∧ search_tracks videos_down_search "test" 10 all
    = ([Search "test" (Some "songs") 10; Search "test" None 10],
       Raise (HTTPException 502 "Upstream unavailable")).
Proof.
  split; [reflexivity|]. split; [reflexivity|].
  destruct (search_all_fails_as_a_whole videos_down_search "test" 10)
    as [Hcalls Hfail].
  destruct Hfail as [Hout _].
  { exists (ProviderError "connection reset"). right. reflexivity. }
  rewrite (surjective_pairing (search_tracks videos_down_search "test" 10 all)).
  rewrite Hcalls, Hout. reflexivity.
Defined.

Lemma normalize_loop_length raw :
  ∀ results seen out,
    normalize_loop raw results seen = Return out →
    (length out ≤ length results + length raw)%nat.
Proof.
  induction raw as [|item raw IH]; intros results seen out H.
  { cbn in H. injection H as <-. lia. }
  cbn [normalize_loop length] in *.
  destruct (negb (truthy _)); [apply IH in H; lia|].
  destruct (dict_get item "videoId") as [| v | |]; try discriminate.
  destruct (bool_decide _); [apply IH in H; lia|].
  destruct (make_entry item v) as [e|]; [|discriminate].
  cbn [mbind outcome_bind] in H. apply IH in H.
  rewrite length_app in H. cbn [length] in H. lia.
Qed.

(** The size of the response in mode "all", for result sets that respect
    the limit. *)
Lemma merged_results_count
    (ytm_search : search_provider) (q : string) (L : Z)
    (songs videos : list record) :
  ytm_search q (Some "songs") L = Return songs →
  ytm_search q None L = Return videos →
  Z.of_nat (length songs) ≤ L →
  Z.of_nat (length videos) ≤ L →
  songs ++ videos ≠ [] →
  forallb well_typed (songs ++ videos) = true →
  ∃ results,
    (search_tracks ytm_search q L all).2 = Return results
    ∧ Z.of_nat (length results) ≤ 2 * L
    ∧ (identifier <$> (songs ++ videos)
         = Some <$> omap identifier (songs ++ videos) →
       NoDup (omap identifier (songs ++ videos)) →
       length results = (length songs + length videos)%nat).
Proof.
  intros Hs Hv Ls Lv Hne Hwt.
  assert (Hm : merged ytm_search q L all = Some (songs ++ videos))
    by (unfold merged; by rewrite Hs, Hv).
  destruct (normalize_loop_spec _ Hwt [] ∅) as (results & Hrun & Hids & _).
  rewrite app_nil_l in Hrun.
  rewrite filter_all in Hids
    by (apply Forall_forall; intros v _; apply not_elem_of_empty).
  exists results. split; [|split].
  - rewrite (search_tracks_merged _ _ _ _ _ Hm).
    destruct (songs ++ videos) eqn:E; [done|]. by rewrite Hrun.
  - apply normalize_loop_length in Hrun. rewrite length_app in Hrun.
    cbn [length] in Hrun. lia.
  - intros Hall Hnd.
    apply (f_equal length) in Hids, Hall.
    rewrite first_occurrences_NoDup in Hids by done.
    rewrite !length_fmap in *. rewrite length_app in Hall. lia.
Qed.

Lemma identifier_tagged c n : identifier (tagged_record c n) = Some (tagged_id c n).
Proof. reflexivity. Qed.

Lemma well_typed_tagged c n : well_typed (tagged_record c n) = true.
Proof. reflexivity. Qed.

Lemma identifiers_tagged c (ns : list nat) :
  omap identifier (tagged_record c <$> ns) = tagged_id c <$> ns
  ∧ identifier <$> (tagged_record c <$> ns) = Some <$> (tagged_id c <$> ns)
  ∧ forallb well_typed (tagged_record c <$> ns) = true.
Proof.
  induction ns as [|n ns (IH1 & IH2 & IH3)]; [done|].
  rewrite !fmap_cons. cbn [omap list_omap forallb].
  rewrite identifier_tagged, well_typed_tagged.
  change (list_omap _ _ identifier (tagged_record c <$> ns))
    with (omap identifier (tagged_record c <$> ns)).
  by rewrite IH1, IH2, IH3.
Qed.

Global Instance tagged_id_inj c : Inj (=) (=) (tagged_id c).
Proof. intros n m [= H]. by apply (inj pretty). Qed.

(** Two result sets of [size] records each, none of which shares its
    identifier with another. *)
Lemma tagged_records_disjoint (size : nat) :
  let raw := tagged_records "s"%char size ++ tagged_records "v"%char size in
  length (tagged_records "s"%char size) = size
  ∧ length (tagged_records "v"%char size) = size
  ∧ forallb well_typed raw = true
  ∧ identifier <$> raw = Some <$> omap identifier raw
  ∧ NoDup (omap identifier raw).
Proof.
  unfold tagged_records.
  destruct (identifiers_tagged "s"%char (seq 0 size)) as (Os & Is & Ws).
  destruct (identifiers_tagged "v"%char (seq 0 size)) as (Ov & Iv & Wv).
  cbn zeta. rewrite !length_fmap, !length_seq, forallb_app, Ws, Wv.
  rewrite omap_app, !fmap_app, Os, Ov, Is, Iv.
  repeat (split; [done|]).
  apply NoDup_app. split; [apply NoDup_fmap_2, NoDup_seq; apply _|].
  split; [|apply NoDup_fmap_2, NoDup_seq; apply _].
  intros v Hs Hv.
  apply list_elem_of_fmap in Hs as (n & -> & _).
  apply list_elem_of_fmap in Hv as (m & Hnm & _). discriminate.
Qed.

(** C10. In mode "all" each of the two queries is given the limit L, and
    the merged list is not cut again.  When both result sets respect the
    limit the response has at most 2 * L entries, and as many entries as
    the two sets have records when these bear identifiers that all differ.
    For every limit there are result sets of L records each for which the
    response has 2 * L entries. *)
Theorem merged_results_not_recapped (q : string) (L : Z) :
  1 ≤ L →
  (∀ ytm_search : search_provider,
     (search_tracks ytm_search q L all).1
     = [Search q (Some "songs") L; Search q None L])
  ∧ (∀ (ytm_search : search_provider) songs videos,
       ytm_search q (Some "songs") L = Return songs →
       ytm_search q None L = Return videos →
       Z.of_nat (length songs) ≤ L →
       Z.of_nat (length videos) ≤ L →
       songs ++ videos ≠ [] →
       forallb well_typed (songs ++ videos) = true →
       ∃ results,
         (search_tracks ytm_search q L all).2 = Return results
         ∧ Z.of_nat (length results) ≤ 2 * L
         ∧ (identifier <$> (songs ++ videos)
              = Some <$> omap identifier (songs ++ videos) →
            NoDup (omap identifier (songs ++ videos)) →
            length results = (length songs + length videos)%nat))
  ∧ (∃ (ytm_search : search_provider) songs videos results,
       ytm_search q (Some "songs") L = Return songs
       ∧ ytm_search q None L = Return videos
       ∧ Z.of_nat (length songs) = L
       ∧ Z.of_nat (length videos) = L
       ∧ (search_tracks ytm_search q L all).2 = Return results
       ∧ Z.of_nat (length results) = 2 * L).
Proof.
  intros HL. split; [reflexivity|].
  split; [intros ytm_search songs videos; apply merged_results_count|].
  set (size := Z.to_nat L).
  destruct (tagged_records_disjoint size) as (Ls & Lv & Hwt & Hall & Hnd).
  destruct (merged_results_count (tagged_search size) q L
              (tagged_records "s"%char size) (tagged_records "v"%char size))
    as (results & Hrun & _ & Hfull); [done|done|lia|lia| |done|].
  { intros Hnil. apply (f_equal length) in Hnil.
    rewrite length_app, Ls in Hnil. cbn in Hnil. lia. }
  exists (tagged_search size), (tagged_records "s"%char size),
    (tagged_records "v"%char size), results.
  repeat (split; [done || lia|]).
  rewrite (Hfull Hall Hnd). lia.
Qed.

Lemma merged_results_not_recapped_witness :
  ∃ (ytm_search : search_provider) songs videos results,
    ytm_search "test" (Some "songs") 2 = Return songs
    ∧ ytm_search "test" None 2 = Return videos
    ∧ length songs = 2%nat ∧ length videos = 2%nat
    ∧ search_tracks ytm_search "test" 2 all
      = ([Search "test" (Some "songs") 2; Search "test" None 2], Return results)
    ∧ length results = 4%nat.
Proof.
  destruct (merged_results_not_recapped "test" 2 ltac:(lia))
    as (Hcalls & _ & ytm_search & songs & videos & results
        & Hs & Hv & Ls & Lv & Hrun & Hlen).
  exists ytm_search, songs, videos, results.
  split; [exact Hs|]. split; [exact Hv|]. split; [lia|]. split; [lia|]. split.
  - rewrite (surjective_pairing (search_tracks ytm_search "test" 2 all)).
    by rewrite Hcalls, Hrun.
  - lia.
Defined.

(** Four records, four identifiers, limit 2: four entries. *)
Example search_disjoint_results :
  sr_videoId <$> default [] (match (search_tracks disjoint_search "test" 2 all).2 with
                             | Return results => Some results
                             | Raise _ => None
                             end)
  = ["AAAAAAAAAAA"; "BBBBBBBBBBB"; "CCCCCCCCCCC"; "DDDDDDDDDDD"].
Proof. vm_compute. reflexivity. Qed.

(** ** The audio URL cache: properties *)

Lemma get_miss c k time :
  (TTLCache.get c k time).1 = None → TTLCache.get c k time = (None, c).
Proof.
  unfold TTLCache.get.
  destruct (List.find _ _) as [l|]; [|done].
  by destruct (TTLCache.live time l).
Qed.

(** A hit comes from an item that has not expired. *)
Lemma get_hit_live c k time v :
  (TTLCache.get c k time).1 = Some v →
  ∃ l, l ∈ TTLCache.links c ∧ TTLCache.key l = k ∧ TTLCache.value l = v
       ∧ time < TTLCache.expires l.
Proof.
  unfold TTLCache.get.
  destruct (List.find _ _) as [l|] eqn:Hfind; [|done].
  destruct (TTLCache.live time l) eqn:Hlive; [|done].
  cbn. intros [= <-]. apply find_some in Hfind as [Hin Hk].
  exists l. split; [by apply list_elem_of_In|].
  split; [by apply bool_decide_eq_true_1 in Hk|]. split; [done|].
  unfold TTLCache.live in Hlive. lia.
Qed.

Lemma find_app_None {A} (f : A → bool) (l1 l2 : list A) :
  List.find f l1 = None → List.find f (l1 ++ l2) = List.find f l2.
Proof.
  induction l1 as [|x l1 IH]; [done|]. cbn [List.find app].
  destruct (f x); [done|exact IH].
Qed.

Lemma find_key_None (k : Z) (ls : list TTLCache.link) :
  k ∉ TTLCache.key <$> ls →
  List.find (λ l, bool_decide (TTLCache.key l = k)) ls = None.
Proof.
  induction ls as [|l ls IH]; [done|]. rewrite fmap_cons, not_elem_of_cons.
  intros [Hne Hk]. cbn [List.find].
  rewrite bool_decide_eq_false_2 by done. by apply IH.
Qed.

(** After a store, the stored item is the only one under its key. *)
Lemma setitem_links c k v time c' :
  TTLCache.setitem c k v time = Return c' →
  ∃ kept, TTLCache.links c'
          = kept ++ [{| TTLCache.key := k; TTLCache.value := v;
                        TTLCache.expires := time + 1000 * TTLCache.ttl c |}]
          ∧ (k ∉ TTLCache.key <$> kept)
          ∧ TTLCache.ttl c' = TTLCache.ttl c
          ∧ TTLCache.maxsize c' = TTLCache.maxsize c.
Proof.
  unfold TTLCache.setitem. destruct (bool_decide (_ < 1)%nat); [done|].
  intros [= <-]. eexists. split; [reflexivity|]. split; [|done].
  set (unexpired := filter _ (TTLCache.links c)).
  destruct (bool_decide (k ∈ TTLCache.key <$> unexpired)) eqn:Hk.
  - intros Hin. apply list_elem_of_fmap in Hin as (l & -> & Hl).
    by apply list_elem_of_filter in Hl as [Hne _].
  - apply bool_decide_eq_false_1 in Hk. intros Hin. apply Hk.
    apply list_elem_of_fmap in Hin as (l & -> & Hl).
    apply list_elem_of_fmap. exists l. split; [done|].
    eapply elem_of_sublist; [exact Hl|apply sublist_drop].
Qed.

(** Looking up a key right after it was stored: the stored value until
    it expires, nothing from then on. *)
Lemma get_after_setitem c k v stored c' time :
  TTLCache.setitem c k v stored = Return c' →
  (TTLCache.get c' k time).1
  = if bool_decide (time < stored + 1000 * TTLCache.ttl c) then Some v else None.
Proof.
  intros Hset. destruct (setitem_links _ _ _ _ _ Hset) as (kept & Hl & Hk & _).
  unfold TTLCache.get. rewrite Hl, (find_app_None _ _ _ (find_key_None _ _ Hk)).
  cbn [List.find TTLCache.key]. rewrite bool_decide_eq_true_2 by done.
  unfold TTLCache.live. cbn [TTLCache.expires TTLCache.value].
  case_bool_decide; destruct (Z.ltb_spec time (stored + 1000 * TTLCache.ttl c));
    done || lia.
Qed.

Lemma setitem_returns c k v time :
  (1 ≤ TTLCache.maxsize c)%nat → ∃ c', TTLCache.setitem c k v time = Return c'.
Proof.
  intros Hm. unfold TTLCache.setitem.
  rewrite bool_decide_eq_false_2 by lia. eauto.
Qed.

(** ** The track handler: cache hits and misses *)

Lemma audio_stage_hit hash up now cache video_id audio_url :
  (TTLCache.get cache (hash video_id) now).1 = Some audio_url →
  audio_stage hash up now cache video_id
  = ([], (TTLCache.get cache (hash video_id) now).2, Return audio_url).
Proof.
  unfold audio_stage. destruct (TTLCache.get _ _ _) as [[u|] c']; [|done].
  by intros [= ->].
Qed.

Lemma audio_stage_miss hash up now cache video_id :
  (TTLCache.get cache (hash video_id) now).1 = None →
  audio_stage hash up now cache video_id
  = match wait_for 8000 (elapsed up video_id)
                   (_extract_audio_url (yt_streams up) video_id) with
    | Raise TimeoutError =>
        ([Streams video_id], cache, Raise (HTTPException 504 "Audio timeout"))
    | Raise _ =>
        ([Streams video_id], cache,
         Raise (HTTPException 503 "Audio extraction failed"))
    | Return audio_url =>
        match TTLCache.setitem cache (hash video_id) audio_url
                               (now + elapsed up video_id) with
        | Return cache'' => ([Streams video_id], cache'', Return audio_url)
        | Raise e => ([Streams video_id], cache, Raise e)
        end
    end.
Proof. intros H. unfold audio_stage. by rewrite (get_miss _ _ _ H). Qed.

(** The calls of the handler are those of its audio stage, followed by
    the metadata query when the audio stage succeeded. *)
Lemma track_details_calls hash up now cache video_id :
  (track_details hash up now cache video_id).1.1
  = (audio_stage hash up now cache video_id).1.1
    ++ match (audio_stage hash up now cache video_id).2 with
       | Return _ => [GetSong video_id]
       | Raise _ => []
       end.
Proof.
  unfold track_details.
  destruct (audio_stage hash up now cache video_id) as [[calls c'] [u|e]]; cbn;
    [done|by rewrite app_nil_r].
Qed.

Lemma track_details_cache hash up now cache video_id :
  (track_details hash up now cache video_id).1.2
  = (audio_stage hash up now cache video_id).1.2.
Proof.
  unfold track_details.
  by destruct (audio_stage hash up now cache video_id) as [[calls c'] [u|e]].
Qed.

Lemma track_details_audio_failure hash up now cache video_id e :
  (audio_stage hash up now cache video_id).2 = Raise e →
  (track_details hash up now cache video_id).2 = Raise e.
Proof.
  unfold track_details.
  destruct (audio_stage hash up now cache video_id) as [[calls c'] [u|e']]; cbn;
    [done|by intros [= ->]].
Qed.

Lemma track_details_audioUrl hash up now cache video_id audio_url details :
  (audio_stage hash up now cache video_id).2 = Return audio_url →
  (track_details hash up now cache video_id).2 = Return details →
  td_audioUrl details = audio_url.
Proof.
  unfold track_details.
  destruct (audio_stage hash up now cache video_id) as [[calls c'] [u|e']]; cbn;
    [|done].
  intros [= ->]. destruct (ytm_get_song up video_id) as [meta|]; [|done].
  repeat match goal with
         | |- context [mbind _ ?m] =>
             destruct m; cbn [mbind outcome_bind]; [|done]
         end.
  by intros [= <-].
Qed.

(** C2. Let a request for a track miss the cache and resolve its audio URL,
    which is stored when the extraction ends.  A second request for the
    same track made before the time to live has run out since then makes
    no stream-listing call and gets the stored URL, whatever the provider
    would answer; a second request made once the time to live has run
    out lists the streams again.  And a hit, in any state of the cache,
    comes from an item that has not expired. *)
Theorem cached_audio_url_within_ttl
    (hash : string → Z) (up1 up2 : upstream) (now1 now2 : Z)
    (cache : TTLCache.t) (video_id audio_url : string) :
  (1 ≤ TTLCache.maxsize cache)%nat →
  (TTLCache.get cache (hash video_id) now1).1 = None →
  wait_for 8000 (elapsed up1 video_id)
           (_extract_audio_url (yt_streams up1) video_id) = Return audio_url →
  let first := audio_stage hash up1 now1 cache video_id in
  let stored := now1 + elapsed up1 video_id in
  let second := audio_stage hash up2 now2 first.1.2 video_id in
  first.1.1 = [Streams video_id]
  ∧ first.2 = Return audio_url
  ∧ (now2 < stored + 1000 * TTLCache.ttl cache →
     second.1.1 = [] ∧ second.2 = Return audio_url
     ∧ (Streams video_id ∉ (track_details hash up2 now2 first.1.2 video_id).1.1)
     ∧ ∀ details,
         (track_details hash up2 now2 first.1.2 video_id).2 = Return details →
         td_audioUrl details = audio_url)
  ∧ (stored + 1000 * TTLCache.ttl cache ≤ now2 →
     second.1.1 = [Streams video_id]
     ∧ Streams video_id ∈ (track_details hash up2 now2 first.1.2 video_id).1.1)
  ∧ (∀ up now c u c',
       audio_stage hash up now c video_id = ([], c', Return u) →
       ∃ l, l ∈ TTLCache.links c ∧ TTLCache.key l = hash video_id
            ∧ TTLCache.value l = u ∧ now < TTLCache.expires l).
Proof.
  intros Hmax Hmiss Hwait first stored second.
  destruct (setitem_returns cache (hash video_id) audio_url stored Hmax)
    as [cache1 Hset].
  assert (Hfirst : first = ([Streams video_id], cache1, Return audio_url)).
  { unfold first. rewrite (audio_stage_miss _ _ _ _ _ Hmiss), Hwait.
    fold stored. by rewrite Hset. }
  pose proof (get_after_setitem _ _ _ _ _ now2 Hset) as Hget.
  subst second. rewrite Hfirst. cbn [fst snd].
  split; [done|]. split; [done|]. split; [|split].
  - intros Hin. rewrite bool_decide_eq_true_2 in Hget by done.
    pose proof (audio_stage_hit hash up2 _ _ _ _ Hget) as Hhit.
    rewrite track_details_calls, Hhit. cbn [fst snd app].
    split; [done|]. split; [done|]. split.
    + rewrite list_elem_of_singleton. discriminate.
    + intros details. apply track_details_audioUrl. by rewrite Hhit.
  - intros Hout. rewrite bool_decide_eq_false_2 in Hget by lia.
    pose proof (audio_stage_miss hash up2 _ _ _ Hget) as Hagain.
    assert (Hcalls : (audio_stage hash up2 now2 cache1 video_id).1.1
                     = [Streams video_id]).
    { rewrite Hagain.
      destruct (wait_for 8000 (elapsed up2 video_id) _) as [u|e]; [|by destruct e].
      by destruct (TTLCache.setitem cache1 _ _ _). }
    split; [done|]. rewrite track_details_calls, Hcalls.
    apply list_elem_of_here.
  - intros up now c u c' Hrun. apply get_hit_live.
    unfold audio_stage in Hrun.
    destruct (TTLCache.get c (hash video_id) now) as [[u'|] c'']; cbn.
    + by injection Hrun as _ ->.
    + destruct (wait_for 8000 (elapsed up video_id) _) as [?|e]; [|by destruct e].
      by destruct (TTLCache.setitem c'' _ _ _).
Qed.

Lemma cached_audio_url_within_ttl_witness :
  let first := audio_stage length_hash up_audio 0 (audio_cache None) "AAAAAAAAAAA" in
  first.2 = Return "u128b"
  ∧ (audio_stage length_hash up_broken 301199 first.1.2 "AAAAAAAAAAA").1.1 = []
  ∧ (audio_stage length_hash up_broken 301199 first.1.2 "AAAAAAAAAAA").2
    = Return "u128b"
  ∧ (audio_stage length_hash up_broken 301200 first.1.2 "AAAAAAAAAAA").1.1
    = [Streams "AAAAAAAAAAA"].
Proof.
  intros first.
  destruct (cached_audio_url_within_ttl length_hash up_audio up_broken 0 301199
              (audio_cache None) "AAAAAAAAAAA" "u128b")
    as (_ & Hfirst & Hin & _); [simpl; lia|reflexivity|reflexivity|].
  destruct (cached_audio_url_within_ttl length_hash up_audio up_broken 0 301200
              (audio_cache None) "AAAAAAAAAAA" "u128b")
    as (_ & _ & _ & Hout & _); [simpl; lia|reflexivity|reflexivity|].
  split; [exact Hfirst|].
  destruct Hin as (Hcalls & Hurl & _); [simpl; lia|].
  split; [exact Hcalls|]. split; [exact Hurl|].
  destruct Hout as [Hagain _]; [simpl; lia|]. exact Hagain.
Defined.

(** ** The track handler: failures of the audio stage *)

(** C4. On a cache miss, an extraction that outlasts the 8 second
    deadline, or that raises a timeout error of its own within it, makes
    the request fail with 504 "Audio timeout"; within the deadline, an
    extraction that raises any other exception makes it fail with 503
    "Audio extraction failed".  The two answers differ, and past the
    deadline the answer is never the 503. *)
Theorem timeout_is_not_extraction_failure
    (hash : string → Z) (up : upstream) (now : Z) (cache : TTLCache.t)
    (video_id : string) :
  (TTLCache.get cache (hash video_id) now).1 = None →
  (8000 < elapsed up video_id →
   (track_details hash up now cache video_id).2
   = Raise (HTTPException 504 "Audio timeout")
   ∧ status_of (track_details hash up now cache video_id).2 = 504
   ∧ (track_details hash up now cache video_id).2
     ≠ Raise (HTTPException 503 "Audio extraction failed"))
  ∧ (elapsed up video_id ≤ 8000 →
     _extract_audio_url (yt_streams up) video_id = Raise TimeoutError →
     (track_details hash up now cache video_id).2
     = Raise (HTTPException 504 "Audio timeout")
     ∧ status_of (track_details hash up now cache video_id).2 = 504)
  ∧ (elapsed up video_id ≤ 8000 →
     ∀ e, _extract_audio_url (yt_streams up) video_id = Raise e →
          e ≠ TimeoutError →
          (track_details hash up now cache video_id).2
          = Raise (HTTPException 503 "Audio extraction failed")
          ∧ status_of (track_details hash up now cache video_id).2 = 503).
Proof.
  intros Hmiss. pose proof (audio_stage_miss hash up _ _ _ Hmiss) as Hrun.
  unfold wait_for in Hrun. split; [|split].
  - intros Hlate. destruct (Z.ltb_spec 8000 (elapsed up video_id)); [|lia].
    rewrite (track_details_audio_failure _ _ _ _ _
               (HTTPException 504 "Audio timeout")) by (by rewrite Hrun).
    done.
  - intros Hsoon He. destruct (Z.ltb_spec 8000 (elapsed up video_id)); [lia|].
    rewrite He in Hrun.
    rewrite (track_details_audio_failure _ _ _ _ _
               (HTTPException 504 "Audio timeout")) by (by rewrite Hrun).
    done.
  - intros Hsoon e He Hne. destruct (Z.ltb_spec 8000 (elapsed up video_id)); [lia|].
    rewrite He in Hrun.
    rewrite (track_details_audio_failure _ _ _ _ _
               (HTTPException 503 "Audio extraction failed"))
      by (rewrite Hrun; by destruct e).
    done.
Qed.

Lemma timeout_is_not_extraction_failure_witness :
  (track_details length_hash up_slow 0 (audio_cache None) "AAAAAAAAAAA").2
  = Raise (HTTPException 504 "Audio timeout")
  ∧ (track_details length_hash up_socket_timeout 0 (audio_cache None)
       "AAAAAAAAAAA").2
    = Raise (HTTPException 504 "Audio timeout")
  ∧ (track_details length_hash up_broken 0 (audio_cache None) "AAAAAAAAAAA").2
    = Raise (HTTPException 503 "Audio extraction failed").
Proof.
  split; [|split].
  - destruct (timeout_is_not_extraction_failure length_hash up_slow 0
                (audio_cache None) "AAAAAAAAAAA") as [Hlate _]; [reflexivity|].
    destruct Hlate as [H _]; [simpl; lia|exact H].
  - destruct (timeout_is_not_extraction_failure length_hash up_socket_timeout 0
                (audio_cache None) "AAAAAAAAAAA") as (_ & Hown & _);
      [reflexivity|].
    destruct Hown as [H _]; [simpl; lia|reflexivity|exact H].
  - destruct (timeout_is_not_extraction_failure length_hash up_broken 0
                (audio_cache None) "AAAAAAAAAAA") as (_ & _ & Hsoon);
      [reflexivity|].
    destruct (Hsoon ltac:(simpl; lia) (ProviderError "video unavailable"))
      as [H _]; [reflexivity|discriminate|exact H].
Defined.

(** Not every failure of the extraction other than an overrun of the
    deadline is answered 503: a timeout error that the extraction raises
    after 2.5 seconds is answered 504. *)
Lemma extractor_timeout_is_not_503 :
  elapsed up_socket_timeout "AAAAAAAAAAA" = 2500
  ∧ _extract_audio_url (yt_streams up_socket_timeout) "AAAAAAAAAAA"
    = Raise TimeoutError
  ∧ (track_details length_hash up_socket_timeout 0 (audio_cache None)
       "AAAAAAAAAAA").2
    = Raise (HTTPException 504 "Audio timeout")
  ∧ ¬ (∀ hash up now cache video_id e,
         (TTLCache.get cache (hash video_id) now).1 = None →
         elapsed up video_id ≤ 8000 →
         _extract_audio_url (yt_streams up) video_id = Raise e →
         (track_details hash up now cache video_id).2
         = Raise (HTTPException 503 "Audio extraction failed")).
Proof.
  split; [reflexivity|]. split; [reflexivity|]. split; [vm_compute; reflexivity|].
  intros Hclaim.
  specialize (Hclaim length_hash up_socket_timeout 0 (audio_cache None)
                "AAAAAAAAAAA" TimeoutError eq_refl).
  assert (Hfalse : (track_details length_hash up_socket_timeout 0
                      (audio_cache None) "AAAAAAAAAAA").2
                   = Raise (HTTPException 503 "Audio extraction failed"))
    by (apply Hclaim; [simpl; lia|reflexivity]).
  vm_compute in Hfalse. discriminate.
Qed.

(** C9. A stream resolution that fails, by timeout or by an extraction
    error, leaves the cache as it was, after a single stream-listing call:
    there is no second attempt.  So the cache is changed only by a request
    whose audio stage succeeds, and a request lists the streams at most
    once. *)
Theorem failed_resolution_leaves_cache
    (hash : string → Z) (up : upstream) (now : Z) (cache : TTLCache.t)
    (video_id : string) :
  let stage := audio_stage hash up now cache video_id in
  let request := track_details hash up now cache video_id in
  (∀ e, stage.2 = Raise e →
        stage.1.2 = cache ∧ stage.1.1 = [Streams video_id]
        ∧ request = ([Streams video_id], cache, Raise e))
  ∧ (stage.1.2 ≠ cache → ∃ audio_url, stage.2 = Return audio_url)
  ∧ (stage.1.1 = [] ∨ stage.1.1 = [Streams video_id]).
Proof.
  intros stage request.
  assert (Hfail : ∀ e, stage.2 = Raise e →
                       stage.1.2 = cache ∧ stage.1.1 = [Streams video_id]).
  { intros e. subst stage. unfold audio_stage.
    destruct (TTLCache.get cache (hash video_id) now) as [[u|] c'] eqn:Hget;
      [done|].
    assert (c' = cache) as ->.
    { apply (f_equal fst) in Hget as Hfst. cbn in Hfst.
      rewrite (get_miss _ _ _ Hfst) in Hget. by injection Hget. }
    destruct (wait_for 8000 _ _) as [u|e']; [|by destruct e'].
    by destruct (TTLCache.setitem cache _ _ _). }
  split; [|split].
  - intros e He. destruct (Hfail e He) as [Hc Hcalls]. split; [done|].
    split; [done|]. subst request. unfold track_details. fold stage.
    destruct stage as [[calls c'] out]. cbn in *. by subst.
  - intros Hchanged. destruct stage.2 as [u|e] eqn:Hout; [eauto|].
    by destruct (Hfail e eq_refl).
  - subst stage. unfold audio_stage.
    destruct (TTLCache.get cache (hash video_id) now) as [[u|] c']; [by left|].
    right. destruct (wait_for 8000 _ _) as [u|e']; [|by destruct e'].
    by destruct (TTLCache.setitem c' _ _ _).
Qed.

Lemma failed_resolution_leaves_cache_witness :
  track_details length_hash up_no_audio 0 (audio_cache None) "AAAAAAAAAAA"
  = ([Streams "AAAAAAAAAAA"], audio_cache None,
     Raise (HTTPException 503 "Audio extraction failed"))
  ∧ track_details length_hash up_slow 0 (audio_cache None) "AAAAAAAAAAA"
    = ([Streams "AAAAAAAAAAA"], audio_cache None,
       Raise (HTTPException 504 "Audio timeout")).
Proof.
  split.
  - destruct (failed_resolution_leaves_cache length_hash up_no_audio 0
                (audio_cache None) "AAAAAAAAAAA") as [Hfail _].
    destruct (Hfail (HTTPException 503 "Audio extraction failed")) as (_ & _ & H);
      [reflexivity|exact H].
  - destruct (failed_resolution_leaves_cache length_hash up_slow 0
                (audio_cache None) "AAAAAAAAAAA") as [Hfail _].
    destruct (Hfail (HTTPException 504 "Audio timeout")) as (_ & _ & H);
      [reflexivity|exact H].
Defined.

(** ** The audio URL extractor *)

Lemma elem_of_insert_by k s l x :
  x ∈ insert_by k s l ↔ x = (k, s) ∨ x ∈ l.
Proof.
  induction l as [|[k' s'] l IH]; cbn [insert_by].
  - rewrite list_elem_of_singleton, elem_of_nil. tauto.
  - destruct (k <=? k')%N; rewrite !elem_of_cons; [done|].
    rewrite IH. tauto.
Qed.

Lemma insert_by_sorted k s l :
  StronglySorted by_bitrate l → StronglySorted by_bitrate (insert_by k s l).
Proof.
  induction l as [|[k' s'] l IH]; cbn [insert_by]; intros Hl.
  - repeat constructor.
  - apply StronglySorted_cons in Hl as [Hall Hl].
    destruct (N.leb_spec k k') as [Hle|Hgt].
    + constructor; [by constructor|]. constructor; [done|].
      eapply Forall_impl; [exact Hall|]. unfold by_bitrate. cbn. intros; lia.
    + constructor; [by apply IH|]. apply Forall_forall. intros x Hx.
      apply elem_of_insert_by in Hx as [->|Hx].
      * unfold by_bitrate. cbn. lia.
      * rewrite Forall_forall in Hall. by apply Hall.
Qed.

Lemma order_by_abr_sorted l : StronglySorted by_bitrate (order_by_abr l).
Proof.
  induction l as [|s l IH]; cbn [order_by_abr]; [constructor|].
  destruct (abr s); [by apply insert_by_sorted|done].
Qed.

Lemma elem_of_order_by_abr l k s :
  (k, s) ∈ order_by_abr l ↔ s ∈ l ∧ abr s = Some k.
Proof.
  induction l as [|s' l IH]; cbn [order_by_abr].
  - rewrite !elem_of_nil. tauto.
  - rewrite elem_of_cons. destruct (abr s') as [k'|] eqn:E.
    + rewrite elem_of_insert_by, IH. split.
      * intros [[= -> ->]|[? ?]]; [by split; [left|]|by split; [right|]].
      * intros [[->|?] Hk]; [left; congruence|by right].
    + rewrite IH. split; [intros [? ?]; by split; [right|]|].
      intros [[->|?] Hk]; [congruence|done].
Qed.

(** The last item of an ascending list is a greatest one. *)
Lemma last_sorted_greatest (l : list (N * Stream)) m :
  StronglySorted by_bitrate l → last l = Some m →
  ∀ x, x ∈ l → by_bitrate x m.
Proof.
  intros Hs Hlast x Hx. apply last_Some in Hlast as [l' ->].
  apply elem_of_app in Hx as [Hx|Hx].
  - eapply StronglySorted_app_1_elem_of; [exact Hs|exact Hx|apply list_elem_of_here].
  - apply list_elem_of_singleton in Hx as ->. unfold by_bitrate. lia.
Qed.

Lemma elem_of_filter_streams ext l s :
  s ∈ filter_streams ext l ↔ s ∈ l ∧ only_audio s ∧ subtype s = ext.
Proof. unfold filter_streams. rewrite list_elem_of_filter. tauto. Qed.

(** C6. Where the provider lists the streams of the track: if there is
    an audio-only mp4 stream with a bitrate, the extractor returns the
    URL of such a stream whose bitrate is the highest among them; if there
    is no audio-only stream at all it raises "No audio stream", and a
    request that misses the cache then fails, within the deadline, with
    503 "Audio extraction failed". *)
Theorem extractor_picks_highest_bitrate
    (yt : stream_provider) (video_id : string) (streams : list Stream) :
  yt video_id = Return streams →
  ((∃ s, s ∈ streams ∧ only_audio s ∧ subtype s = "mp4" ∧ is_Some (abr s)) →
   ∃ s b, _extract_audio_url yt video_id = Return (url s)
          ∧ s ∈ streams ∧ only_audio s ∧ subtype s = "mp4" ∧ abr s = Some b
          ∧ ∀ s' b', s' ∈ streams → only_audio s' → subtype s' = "mp4" →
                     abr s' = Some b' → (b' ≤ b)%N)
  ∧ ((∀ s, s ∈ streams → ¬ only_audio s) →
     _extract_audio_url yt video_id = Raise (ValueError "No audio stream")
     ∧ ∀ hash up now cache,
         yt_streams up = yt →
         (TTLCache.get cache (hash video_id) now).1 = None →
         elapsed up video_id ≤ 8000 →
         (track_details hash up now cache video_id).2
         = Raise (HTTPException 503 "Audio extraction failed")
         ∧ status_of (track_details hash up now cache video_id).2 = 503).
Proof.
  intros Hyt. unfold _extract_audio_url. rewrite Hyt. cbn [mbind outcome_bind].
  split.
  - intros (s0 & Hin0 & Hao0 & Hsub0 & [b0 Hb0]).
    assert (Hcand : (b0, s0) ∈ order_by_abr (filter_streams "mp4" streams))
      by (by apply elem_of_order_by_abr; rewrite elem_of_filter_streams).
    destruct (last (order_by_abr (filter_streams "mp4" streams)))
      as [[b s]|] eqn:Hlast.
    + exists s, b. split; [done|].
      pose proof (last_Some_elem_of _ _ Hlast) as Hs.
      apply elem_of_order_by_abr in Hs as [Hs Hb].
      apply elem_of_filter_streams in Hs as (Hin & Hao & Hsub).
      repeat (split; [done|]).
      intros s' b' Hin' Hao' Hsub' Hb'.
      apply (last_sorted_greatest _ (b, s) (order_by_abr_sorted _) Hlast (b', s')).
      by apply elem_of_order_by_abr; rewrite elem_of_filter_streams.
    + apply last_None in Hlast. rewrite Hlast in Hcand. by apply elem_of_nil in Hcand.
  - intros Hnone.
    assert (Hempty : filter_streams "mp4" streams = []).
    { apply elem_of_nil_inv. intros s Hs.
      apply elem_of_filter_streams in Hs as (Hin & Hao & _). by apply (Hnone s). }
    rewrite Hempty. cbn. split; [done|].
    intros hash up now cache Hup Hmiss Hsoon.
    pose proof (audio_stage_miss hash up _ _ _ Hmiss) as Hrun.
    unfold wait_for in Hrun.
    destruct (Z.ltb_spec 8000 (elapsed up video_id)); [lia|].
    unfold _extract_audio_url in Hrun. rewrite Hup, Hyt in Hrun.
    cbn [mbind outcome_bind] in Hrun. rewrite Hempty in Hrun. cbn in Hrun.
    rewrite (track_details_audio_failure _ _ _ _ _
               (HTTPException 503 "Audio extraction failed")) by (by rewrite Hrun).
    done.
Qed.

Lemma extractor_picks_highest_bitrate_witness :
  _extract_audio_url (yt_streams up_audio) "AAAAAAAAAAA" = Return "u128b"
  ∧ track_details length_hash up_no_audio 0 (audio_cache None) "AAAAAAAAAAA"
    = ([Streams "AAAAAAAAAAA"], audio_cache None,
       Raise (HTTPException 503 "Audio extraction failed")).
Proof.
  split.
  - destruct (extractor_picks_highest_bitrate (yt_streams up_audio) "AAAAAAAAAAA"
                [mk_stream true false "mp4" (Some 128%N) "u128";
                 mk_stream true false "mp4" (Some 48%N) "u48";
                 mk_stream true false "webm" (Some 160%N) "u160";
                 mk_stream true true "mp4" (Some 192%N) "u192";
                 mk_stream true false "mp4" (Some 128%N) "u128b"])
      as [Hbest _]; [reflexivity|].
    destruct Hbest as (s & b & Hrun & _).
    { exists (mk_stream true false "mp4" (Some 128%N) "u128").
      split; [apply list_elem_of_here|]. repeat split. by exists 128%N. }
    reflexivity.
  - destruct (extractor_picks_highest_bitrate (yt_streams up_no_audio) "AAAAAAAAAAA"
                [mk_stream true true "mp4" (Some 192%N) "u192";
                 mk_stream false true "mp4" None "v720"])
      as [_ Hnone]; [reflexivity|].
    destruct Hnone as [_ H503].
    { intros s Hs [Ha Hv].
      rewrite !elem_of_cons, elem_of_nil in Hs.
      destruct Hs as [->|[->|[]]]; discriminate. }
    destruct (H503 length_hash up_no_audio 0 (audio_cache None))
      as [Hout _]; [reflexivity|reflexivity|simpl; lia|].
    rewrite (surjective_pairing (track_details _ _ _ _ _)).
    rewrite Hout. reflexivity.
Defined.

(** * Further properties of the search handler *)

Set Warnings "-clear-no-such-hyp".

Lemma str_items_raises l e : str_items l = Raise e → e = TypeError.
Proof.
  induction l as [|a l IH]; [done|]. cbn [str_items].
  destruct a; try (intros ?; by simplify_eq).
  destruct (str_items l); cbn; [done|]. intros [= <-]. by apply IH.
Qed.

Lemma make_entry_raises item v e : make_entry item v = Raise e → e = TypeError.
Proof.
  unfold make_entry.
  destruct (py_iter _) as [src|e'] eqn:Hiter; cbn [mbind outcome_bind].
  - destruct (artist_names src) as [|a names] eqn:Hnames; cbn [mbind outcome_bind].
    + destruct (py_or _ (PStr "video")); (intros ?; by simplify_eq).
    + unfold py_join.
      destruct (str_items (a :: names)) as [ss|e'] eqn:Hitems;
        cbn [mbind outcome_bind].
      * destruct (py_or _ (PStr "video")); (intros ?; by simplify_eq).
      * intros [= <-]. by apply str_items_raises in Hitems.
  - intros [= <-]. destruct (py_or _ (PList [])); cbn in Hiter; by simplify_eq.
Qed.

(** The kind of an entry is never empty. *)
Lemma make_entry_kind item v r :
  make_entry item v = Return r →
  sr_videoId r = v ∧ sr_type r ≠ ""
  ∧ sr_thumbnail r = thumbnail_url v (sr_type r)
  ∧ sr_title r = dict_get_default item "title" (PStr "No title").
Proof.
  unfold make_entry. intros H.
  destruct (py_iter _) as [src|]; [|discriminate]. cbn [mbind outcome_bind] in H.
  destruct (match artist_names src with [] => _ | _ => _ end) as [artist|];
    [|discriminate].
  cbn [mbind outcome_bind] in H.
  destruct (py_or _ (PStr "video")) as [| k | |] eqn:Hkind; try discriminate.
  injection H as <-. cbn. repeat split.
  unfold py_or in Hkind.
  destruct (truthy (dict_get item "resultType")) eqn:Ht.
  - rewrite Hkind in Ht. cbn in Ht. intros ->. discriminate.
  - injection Hkind as <-. discriminate.
Qed.

(** The accumulator of the loop is a prefix of what it returns. *)
Lemma normalize_loop_acc raw :
  ∀ results seen,
    normalize_loop raw results seen
    = (out ← normalize_loop raw [] seen; Return (results ++ out)).
Proof.
  induction raw as [|item raw IH]; intros results seen.
  { cbn. by rewrite app_nil_r. }
  cbn [normalize_loop].
  destruct (negb (truthy _)); [apply IH|].
  destruct (dict_get item "videoId") as [| v | |]; try done.
  destruct (bool_decide _); [apply IH|].
  destruct (make_entry item v) as [e|]; [|done]. cbn [mbind outcome_bind].
  rewrite (IH (results ++ [e])), (IH ([] ++ [e])).
  destruct (normalize_loop raw [] _) as [out|]; [|done].
  cbn. by rewrite <- app_assoc.
Qed.

Lemma normalize_loop_raises raw :
  ∀ results seen e, normalize_loop raw results seen = Raise e → e = TypeError.
Proof.
  induction raw as [|item raw IH]; intros results seen e; [done|].
  cbn [normalize_loop].
  destruct (negb (truthy _)); [apply IH|].
  destruct (dict_get item "videoId") as [| v | |]; try (intros ?; by simplify_eq).
  destruct (bool_decide _); [apply IH|].
  destruct (make_entry item v) as [entry|e'] eqn:Hentry; cbn [mbind outcome_bind].
  - apply IH.
  - intros [= <-]. by apply make_entry_raises in Hentry.
Qed.

Lemma identifier_falsy item :
  truthy (dict_get item "videoId") = false → identifier item = None.
Proof.
  unfold identifier, dict_get.
  destruct (item !! "videoId") as [[| v | |]|]; try done. cbn.
  destruct (decide (v = "")); [done|].
  destruct (String.eqb_spec v ""); done.
Qed.

Lemma identifier_truthy item v :
  dict_get item "videoId" = PStr v → truthy (PStr v) = true →
  identifier item = Some v.
Proof.
  unfold identifier, dict_get.
  destruct (item !! "videoId") as [[| v' | |]|]; try done. cbn.
  intros [= ->]. destruct (String.eqb_spec v ""); [done|].
  by destruct (decide (v = "")).
Qed.

(** What the loop has returned, whatever the shape of the records. *)
Lemma normalize_loop_returned raw :
  ∀ seen out,
    normalize_loop raw [] seen = Return out →
    sr_videoId <$> out
    = filter (λ v, v ∉ seen) (first_occurrences (omap identifier raw))
    ∧ Forall (λ r, ∃ item, first_bearing (sr_videoId r) raw = Some item
                           ∧ make_entry item (sr_videoId r) = Return r) out.
Proof.
  induction raw as [|item raw IH]; intros seen out Hrun.
  { cbn in Hrun. by injection Hrun as <-. }
  assert (Hlater : ∀ (seen' : gset string) entries,
    (∀ w, w ∉ seen' → identifier item ≠ Some w) →
    sr_videoId <$> entries
      = filter (λ v, v ∉ seen') (first_occurrences (omap identifier raw)) →
    Forall (λ r, ∃ item', first_bearing (sr_videoId r) raw = Some item'
                          ∧ make_entry item' (sr_videoId r) = Return r) entries →
    Forall (λ r, ∃ item', first_bearing (sr_videoId r) (item :: raw) = Some item'
                          ∧ make_entry item' (sr_videoId r) = Return r) entries).
  { intros seen' entries Hne Hids Hall.
    apply Forall_forall. intros r Hr.
    rewrite Forall_forall in Hall. destruct (Hall r Hr) as (item' & Hf & He).
    exists item'. split; [|done]. rewrite first_bearing_cons_ne; [done|].
    apply Hne.
    assert (Hin : sr_videoId r ∈ sr_videoId <$> entries)
      by (apply list_elem_of_fmap; eauto).
    rewrite Hids in Hin. by apply list_elem_of_filter in Hin as [? _]. }
  cbn [normalize_loop omap list_omap] in *.
  destruct (truthy (dict_get item "videoId")) eqn:Htr; cbn [negb] in Hrun.
  - destruct (dict_get item "videoId") as [| v | |] eqn:Hvid; try discriminate.
    rewrite (identifier_truthy _ _ Hvid Htr). cbn [first_occurrences].
    destruct (decide (v ∈ seen)) as [Hin|Hnin].
    + rewrite bool_decide_eq_true_2 in Hrun by done.
      destruct (IH _ _ Hrun) as [Hids Hall]. split.
      * by rewrite filter_unseen_cons_seen.
      * apply (Hlater seen); [|done..].
        rewrite (identifier_truthy _ _ Hvid Htr). intros w Hw [= ->]. contradiction.
    + rewrite bool_decide_eq_false_2 in Hrun by done.
      destruct (make_entry item v) as [e|] eqn:He; [|discriminate].
      cbn [mbind outcome_bind] in Hrun. rewrite normalize_loop_acc in Hrun.
      destruct (normalize_loop raw [] ({[v]} ∪ seen)) as [out'|] eqn:Hrun';
        [|discriminate].
      cbn in Hrun. injection Hrun as <-.
      destruct (IH _ _ Hrun') as [Hids Hall]. split.
      * rewrite filter_unseen_cons_new by done. rewrite fmap_cons, Hids.
        by rewrite (make_entry_videoId _ _ _ He).
      * constructor.
        -- exists item. rewrite (make_entry_videoId _ _ _ He).
           split; [|done].
           apply first_bearing_cons_eq, (identifier_truthy _ _ Hvid Htr).
        -- apply (Hlater ({[v]} ∪ seen)); [|done..].
           rewrite (identifier_truthy _ _ Hvid Htr). intros w Hw [= ->].
           apply Hw, elem_of_union_l, elem_of_singleton_2. reflexivity.
  - rewrite (identifier_falsy _ Htr).
    destruct (IH _ _ Hrun) as [Hids Hall]. split; [done|].
    apply (Hlater seen); [|done..].
    rewrite (identifier_falsy _ Htr). intros w _. discriminate.
Qed.

(** Records that the loop passes over: no identifier, or one that was
    seen. *)
Lemma normalize_loop_skips raw results (seen : gset string) :
  Forall (λ item, truthy (dict_get item "videoId") = false
                  ∨ ∃ v, dict_get item "videoId" = PStr v ∧ v ∈ seen) raw →
  normalize_loop raw results seen = Return results.
Proof.
  induction 1 as [|item raw Hitem _ IH]; [done|]. cbn [normalize_loop].
  destruct Hitem as [->|(v & -> & Hv)]; [done|].
  destruct (negb (truthy (PStr v))); [done|].
  by rewrite bool_decide_eq_true_2.
Qed.

(** The loop on a list in two parts: the second part starts from the
    identifiers of the first. *)
Lemma normalize_loop_app a b :
  ∀ (seen : gset string) ra,
    normalize_loop a [] seen = Return ra →
    normalize_loop (a ++ b) [] seen
    = (rb ← normalize_loop b [] (list_to_set (omap identifier a) ∪ seen);
       Return (ra ++ rb)).
Proof.
  induction a as [|item a IH]; intros seen ra Hrun.
  { cbn in Hrun. injection Hrun as <-. cbn [app omap list_omap list_to_set].
    rewrite (left_id_L ∅ (∪)). by destruct (normalize_loop b [] seen). }
  cbn [app normalize_loop omap list_omap] in *.
  destruct (truthy (dict_get item "videoId")) eqn:Htr; cbn [negb] in *.
  - destruct (dict_get item "videoId") as [| v | |] eqn:Hvid; try discriminate.
    rewrite (identifier_truthy _ _ Hvid Htr). cbn [list_to_set].
    destruct (decide (v ∈ seen)) as [Hin|Hnin].
    + rewrite bool_decide_eq_true_2 in * by done.
      rewrite (IH _ _ Hrun). do 2 f_equal. set_solver.
    + rewrite bool_decide_eq_false_2 in * by done.
      destruct (make_entry item v) as [e|]; [|discriminate].
      cbn [mbind outcome_bind] in *.
      rewrite normalize_loop_acc in Hrun. rewrite normalize_loop_acc.
      destruct (normalize_loop a [] ({[v]} ∪ seen)) as [ra'|] eqn:Hrun';
        [|discriminate].
      cbn in Hrun. injection Hrun as <-. rewrite (IH _ _ Hrun').
      replace (list_to_set (omap identifier a) ∪ ({[v]} ∪ seen))
        with ({[v]} ∪ list_to_set (omap identifier a) ∪ seen) by set_solver.
      by destruct (normalize_loop b [] _).
  - rewrite (identifier_falsy _ Htr). by apply IH.
Qed.

(** Starting the loop with more identifiers seen removes the entries
    that bear them, and nothing else. *)
Lemma normalize_loop_seen b :
  ∀ (seen0 seen : gset string) r0,
    normalize_loop b [] seen0 = Return r0 →
    normalize_loop b [] (seen ∪ seen0)
    = Return (filter (λ r, sr_videoId r ∉ seen) r0).
Proof.
  induction b as [|item b IH]; intros seen0 seen r0 Hrun.
  { cbn in Hrun. by injection Hrun as <-. }
  cbn [normalize_loop] in *.
  destruct (negb (truthy (dict_get item "videoId"))); [by apply IH|].
  destruct (dict_get item "videoId") as [| v | |]; try discriminate.
  destruct (decide (v ∈ seen0)) as [Hin0|Hnin0].
  { rewrite bool_decide_eq_true_2 in Hrun by done.
    rewrite bool_decide_eq_true_2 by set_solver. by apply IH. }
  rewrite bool_decide_eq_false_2 in Hrun by done.
  destruct (make_entry item v) as [e|] eqn:He; [|discriminate].
  cbn [mbind outcome_bind] in Hrun. rewrite normalize_loop_acc in Hrun.
  destruct (normalize_loop b [] ({[v]} ∪ seen0)) as [r0'|] eqn:Hrun';
    [|discriminate].
  cbn in Hrun. injection Hrun as <-.
  pose proof (make_entry_videoId _ _ _ He) as Hv.
  destruct (decide (v ∈ seen)) as [Hin|Hnin].
  - rewrite bool_decide_eq_true_2 by set_solver.
    rewrite filter_cons_False by (rewrite Hv; by intros Hn; apply Hn).
    rewrite <- (IH _ _ _ Hrun'). f_equal. set_solver.
  - rewrite bool_decide_eq_false_2 by set_solver.
    cbn [mbind outcome_bind]. rewrite normalize_loop_acc.
    replace ({[v]} ∪ (seen ∪ seen0)) with (seen ∪ ({[v]} ∪ seen0)) by set_solver.
    rewrite (IH _ _ _ Hrun'). cbn [mbind outcome_bind app].
    by rewrite filter_cons_True by (by rewrite Hv).
Qed.

Lemma elem_of_returned_ids raw out v :
  normalize_loop raw [] ∅ = Return out →
  v ∈ sr_videoId <$> out ↔ v ∈ (list_to_set (omap identifier raw) : gset string).
Proof.
  intros Hrun. destruct (normalize_loop_returned _ _ _ Hrun) as [-> _].
  rewrite filter_all
    by (apply Forall_forall; intros w _; apply not_elem_of_empty).
  by rewrite elem_of_first_occurrences, elem_of_list_to_set.
Qed.

(** X1. The search handler answers 200, 404, 502 or 500 and nothing
    else: 502 exactly when a query raised, 404 exactly when the raw list
    is empty, and a 500 is always a [TypeError] out of the loop. *)
Theorem search_status_classes
    (ytm_search : search_provider) (q : string) (limit : Z) (type : search_type) :
  let out := (search_tracks ytm_search q limit type).2 in
  status_of out ∈ [200; 404; 502; 500]
  ∧ (status_of out = 502 ↔ merged ytm_search q limit type = None)
  ∧ (status_of out = 404 ↔ merged ytm_search q limit type = Some [])
  ∧ (status_of out = 500 → out = Raise TypeError).
Proof.
  cbn zeta. destruct (merged ytm_search q limit type) as [raw|] eqn:Hm.
  - rewrite (search_tracks_merged _ _ _ _ _ Hm).
    destruct raw as [|item raw]; [cbn; set_solver|].
    destruct (normalize_loop (item :: raw) [] ∅) as [results|e] eqn:Hrun.
    + cbn. set_solver.
    + apply normalize_loop_raises in Hrun as ->. cbn. set_solver.
  - rewrite (search_tracks_unavailable _ _ _ _ Hm). cbn. set_solver.
Qed.

(** X2. Whatever the shape of the records, the entries of a successful
    search bear pairwise different identifiers, none of them empty; each
    identifier is that of a record of the raw list, the kind of an entry
    is never empty, its thumbnail is the helper's URL for its identifier
    and kind, and there are no more entries than raw records. *)
Theorem search_results_invariants
    (ytm_search : search_provider) (q : string) (limit : Z) (type : search_type)
    (results : list SearchResult) :
  (search_tracks ytm_search q limit type).2 = Return results →
  ∃ raw,
    merged ytm_search q limit type = Some raw
    ∧ NoDup (sr_videoId <$> results)
    ∧ (length results ≤ length raw)%nat
    ∧ Forall (λ r, sr_videoId r ≠ "" ∧ sr_type r ≠ ""
                   ∧ sr_thumbnail r = thumbnail_url (sr_videoId r) (sr_type r)
                   ∧ ∃ item, item ∈ raw
                             ∧ item !! "videoId" = Some (PStr (sr_videoId r)))
             results.
Proof.
  intros Hout. destruct (merged ytm_search q limit type) as [raw|] eqn:Hm.
  2: { by rewrite (search_tracks_unavailable _ _ _ _ Hm) in Hout. }
  rewrite (search_tracks_merged _ _ _ _ _ Hm) in Hout.
  assert (Hrun : normalize_loop raw [] ∅ = Return results)
    by (by destruct raw).
  exists raw. split; [done|].
  destruct (normalize_loop_returned _ _ _ Hrun) as [Hids Hall].
  split; [rewrite Hids; apply NoDup_filter, NoDup_first_occurrences|].
  split; [apply normalize_loop_length in Hrun; cbn in Hrun; lia|].
  eapply Forall_impl; [exact Hall|]. intros r (item & Hfirst & Hentry).
  destruct (first_bearing_Some _ _ _ Hfirst) as [Hin Hid].
  destruct (make_entry_kind _ _ _ Hentry) as (_ & Hkind & Hthumb & _).
  unfold identifier in Hid.
  destruct (item !! "videoId") as [[| v | |]|] eqn:Hvid; try discriminate.
  destruct (decide (v = "")) as [|Hne]; [discriminate|]. injection Hid as Hv.
  split; [by rewrite <- Hv|]. split; [done|]. split; [done|].
  exists item. by rewrite <- Hv.
Qed.

Lemma search_results_invariants_witness :
  ∃ raw,
    merged ex1_search "test" 10 all = Some raw
    ∧ NoDup (sr_videoId <$> [{| sr_title := PStr "T1";
                                sr_artist := "X";
                                sr_thumbnail :=
                                  "https://img.youtube.com/vi/AAAAAAAAAAA/maxresdefault.jpg";
                                sr_videoId := "AAAAAAAAAAA";
                                sr_type := "song" |}])
    ∧ (1 ≤ length raw)%nat.
Proof.
  destruct (search_results_invariants ex1_search "test" 10 all
              [{| sr_title := PStr "T1";
                  sr_artist := "X";
                  sr_thumbnail :=
                    "https://img.youtube.com/vi/AAAAAAAAAAA/maxresdefault.jpg";
                  sr_videoId := "AAAAAAAAAAA";
                  sr_type := "song" |}])
    as (raw & Hm & Hnd & Hlen & _); [vm_compute; reflexivity|].
  exists raw. split; [exact Hm|]. split; [exact Hnd|exact Hlen].
Defined.

(** X3. In mode "all" the songs results take precedence: the response is
    made of the entries that the songs results give on their own,
    followed by those entries of the videos results whose identifier is
    not among them. *)
Theorem songs_results_take_precedence
    (ytm_search : search_provider) (q : string) (limit : Z)
    (songs videos : list record) (rs rv : list SearchResult) :
  ytm_search q (Some "songs") limit = Return songs →
  ytm_search q None limit = Return videos →
  songs ++ videos ≠ [] →
  normalize_loop songs [] ∅ = Return rs →
  normalize_loop videos [] ∅ = Return rv →
  (search_tracks ytm_search q limit all).2
  = Return (rs ++ filter (λ r, sr_videoId r ∉ sr_videoId <$> rs) rv).
Proof.
  intros Hs Hv Hne Hrs Hrv.
  assert (Hm : merged ytm_search q limit all = Some (songs ++ videos))
    by (unfold merged; by rewrite Hs, Hv).
  rewrite (search_tracks_merged _ _ _ _ _ Hm).
  rewrite (normalize_loop_app _ videos _ _ Hrs).
  rewrite (normalize_loop_seen _ ∅ _ _ Hrv). cbn [mbind outcome_bind].
  rewrite (list_filter_iff _ (λ r, sr_videoId r ∉ sr_videoId <$> rs)).
  - by destruct (songs ++ videos).
  - intros r. by rewrite (elem_of_returned_ids _ _ _ Hrs).
Qed.

Lemma songs_results_take_precedence_witness :
  (search_tracks disjoint_search "test" 2 all).2
  = Return ([{| sr_title := PStr "No title"; sr_artist := "Unknown";
                sr_thumbnail := thumbnail_url "AAAAAAAAAAA" "video";
                sr_videoId := "AAAAAAAAAAA"; sr_type := "video" |};
             {| sr_title := PStr "No title"; sr_artist := "Unknown";
                sr_thumbnail := thumbnail_url "BBBBBBBBBBB" "video";
                sr_videoId := "BBBBBBBBBBB"; sr_type := "video" |}]
            ++ filter (λ r, sr_videoId r ∉ ["AAAAAAAAAAA"; "BBBBBBBBBBB"])
                 [{| sr_title := PStr "No title"; sr_artist := "Unknown";
                     sr_thumbnail := thumbnail_url "CCCCCCCCCCC" "video";
                     sr_videoId := "CCCCCCCCCCC"; sr_type := "video" |};
                  {| sr_title := PStr "No title"; sr_artist := "Unknown";
                     sr_thumbnail := thumbnail_url "DDDDDDDDDDD" "video";
                     sr_videoId := "DDDDDDDDDDD"; sr_type := "video" |}]).
Proof.
  apply (songs_results_take_precedence disjoint_search "test" 2
           [dict [("videoId", PStr "AAAAAAAAAAA")];
            dict [("videoId", PStr "BBBBBBBBBBB")]]
           [dict [("videoId", PStr "CCCCCCCCCCC")];
            dict [("videoId", PStr "DDDDDDDDDDD")]]);
    [reflexivity|reflexivity|discriminate
    |vm_compute; reflexivity|vm_compute; reflexivity].
Defined.

(** X4. Records that come after the first bearer of their identifier are
    never looked into: appended to a raw list that normalises, records
    without identifier or with an identifier of that list leave the
    result as it is, even when their other fields are malformed. *)
Theorem later_duplicates_are_ignored
    (raw extra : list record) (results : list SearchResult) :
  normalize_loop raw [] ∅ = Return results →
  Forall (λ item, truthy (dict_get item "videoId") = false
                  ∨ ∃ v, dict_get item "videoId" = PStr v
                         ∧ v ∈ sr_videoId <$> results) extra →
  normalize_loop (raw ++ extra) [] ∅ = Return results.
Proof.
  intros Hrun Hextra. rewrite (normalize_loop_app _ extra _ _ Hrun).
  rewrite normalize_loop_skips; [cbn; by rewrite app_nil_r|].
  eapply Forall_impl; [exact Hextra|]. intros item [Hf|(v & Hv & Hin)]; [by left|].
  right. exists v. split; [done|].
  apply elem_of_union_l. by apply (elem_of_returned_ids _ _ _ Hrun).
Qed.

Lemma later_duplicates_are_ignored_witness :
  make_entry broken_duplicate "AAAAAAAAAAA" = Raise TypeError
  ∧ ∃ results,
      normalize_loop ex1_songs [] ∅ = Return results
      ∧ normalize_loop (ex1_songs ++ [broken_duplicate]) [] ∅ = Return results.
Proof.
  split; [vm_compute; reflexivity|].
  destruct (normalize_loop ex1_songs [] ∅) as [results|] eqn:Hrun;
    [|vm_compute in Hrun; discriminate].
  exists results. split; [reflexivity|].
  apply (later_duplicates_are_ignored ex1_songs [broken_duplicate] results Hrun).
  constructor; [|constructor]. right. exists "AAAAAAAAAAA".
  split; [vm_compute; reflexivity|].
  vm_compute in Hrun. injection Hrun as <-. apply list_elem_of_here.
Defined.

Lemma normalize_loop_unhashable raw item :
  item ∈ raw → unhashable (dict_get item "videoId") = true →
  ∀ results seen, normalize_loop raw results seen = Raise TypeError.
Proof.
  intros Hin Hun. induction raw as [|head raw IH]; [by apply elem_of_nil in Hin|].
  intros results seen. cbn [normalize_loop].
  apply elem_of_cons in Hin as [<-|Hin].
  - destruct (dict_get item "videoId") as [| v | l | d];
      cbv [unhashable] in Hun; try discriminate; by rewrite Hun.
  - specialize (IH Hin).
    destruct (negb (truthy _)); [apply IH|].
    destruct (dict_get head "videoId") as [| v | |]; try done.
    destruct (bool_decide _); [apply IH|].
    destruct (make_entry head v) as [e|e] eqn:He; cbn [mbind outcome_bind];
      [apply IH|]. by apply make_entry_raises in He as ->.
Qed.

(** X5. One record whose identifier is a non-empty list or dict makes
    the whole search fail with an unhandled [TypeError], a 500, wherever
    the record stands and whatever the other records are. *)
Theorem unhashable_identifier_fails_search
    (ytm_search : search_provider) (q : string) (limit : Z) (type : search_type)
    (raw : list record) (item : record) :
  merged ytm_search q limit type = Some raw →
  item ∈ raw →
  unhashable (dict_get item "videoId") = true →
  (search_tracks ytm_search q limit type).2 = Raise TypeError
  ∧ status_of (search_tracks ytm_search q limit type).2 = 500.
Proof.
  intros Hm Hin Hun. rewrite (search_tracks_merged _ _ _ _ _ Hm).
  rewrite (normalize_loop_unhashable _ _ Hin Hun).
  destruct raw; [by apply elem_of_nil in Hin|done].
Qed.

Lemma unhashable_identifier_fails_search_witness :
  (search_tracks unhashable_search "test" 10 video).2 = Raise TypeError
  ∧ status_of (search_tracks unhashable_search "test" 10 video).2 = 500.
Proof.
  apply (unhashable_identifier_fails_search unhashable_search "test" 10 video
           unhashable_raw (dict [("videoId", PList [PStr "BBBBBBBBBBB"])]));
    [reflexivity| |vm_compute; reflexivity].
  apply list_elem_of_further, list_elem_of_here.
Defined.

(** X6. The 404 is decided before the loop runs: a raw list that is not
    empty and in which no record bears an identifier is answered with an
    empty list of results, a 200. *)
Theorem records_without_identifier_give_empty_success
    (ytm_search : search_provider) (q : string) (limit : Z) (type : search_type)
    (raw : list record) :
  merged ytm_search q limit type = Some raw →
  raw ≠ [] →
  Forall (λ item, truthy (dict_get item "videoId") = false) raw →
  (search_tracks ytm_search q limit type).2 = Return []
  ∧ status_of (search_tracks ytm_search q limit type).2 = 200.
Proof.
  intros Hm Hne Hall. rewrite (search_tracks_merged _ _ _ _ _ Hm).
  rewrite normalize_loop_skips
    by (eapply Forall_impl; [exact Hall|]; by left).
  by destruct raw.
Qed.

Lemma records_without_identifier_give_empty_success_witness :
  (search_tracks anonymous_search "test" 10 all).2 = Return []
  ∧ status_of (search_tracks anonymous_search "test" 10 all).2 = 200.
Proof.
  apply (records_without_identifier_give_empty_success anonymous_search "test" 10 all
           ([dict [("channel", PList [PDict (dict [("name", PStr "Chan1")])])]]
            ++ [dict [("channel", PList [PDict (dict [("name", PStr "Chan1")])])]]));
    [reflexivity|discriminate|].
  repeat constructor.
Defined.

(** * Further properties of the thumbnail helper *)

Lemma list_ascii_of_string_app (a b : string) :
  String.list_ascii_of_string (a +:+ b)
  = String.list_ascii_of_string a ++ String.list_ascii_of_string b.
Proof.
  induction a as [|c a IH]; [done|].
  change (String c a +:+ b) with (String c (a +:+ b)).
  cbn [String.list_ascii_of_string app]. by rewrite IH.
Qed.

Lemma list_ascii_of_string_inj (a b : string) :
  String.list_ascii_of_string a = String.list_ascii_of_string b → a = b.
Proof.
  intros H. apply (f_equal String.string_of_list_ascii) in H.
  by rewrite !String.string_of_list_ascii_of_string in H.
Qed.

(** X7. Two thumbnail URLs are equal only for the same identifier, and
    only when both kinds are "song" or neither is: tracks never share a
    thumbnail URL. *)
Theorem thumbnail_url_injective (video_id kind video_id' kind' : string) :
  thumbnail_url video_id kind = thumbnail_url video_id' kind' →
  video_id = video_id' ∧ (kind = "song" ↔ kind' = "song").
Proof.
  unfold thumbnail_url, tier, quality_url. intros H.
  assert (Hcases :
    String.list_ascii_of_string video_id
      ++ String.list_ascii_of_string
           (if String.eqb kind "song" then "/maxresdefault.jpg" else "/hqdefault.jpg")
    = String.list_ascii_of_string video_id'
      ++ String.list_ascii_of_string
           (if String.eqb kind' "song" then "/maxresdefault.jpg" else "/hqdefault.jpg")).
  { rewrite <- !list_ascii_of_string_app. f_equal.
    destruct (String.eqb kind "song"), (String.eqb kind' "song");
      by apply (inj (String.app "https://img.youtube.com/vi/")) in H. }
  clear H.
  destruct (String.eqb_spec kind "song") as [Hk|Hk],
           (String.eqb_spec kind' "song") as [Hk'|Hk'].
  - apply app_inv_tail, list_ascii_of_string_inj in Hcases. by split.
  - exfalso.
    change (String.list_ascii_of_string "/maxresdefault.jpg")
      with (String.list_ascii_of_string "/max"
            ++ String.list_ascii_of_string "resdefault.jpg") in Hcases.
    rewrite app_assoc in Hcases.
    apply app_inj_2 in Hcases as [_ Hsuffix]; [discriminate|reflexivity].
  - exfalso. symmetry in Hcases.
    change (String.list_ascii_of_string "/maxresdefault.jpg")
      with (String.list_ascii_of_string "/max"
            ++ String.list_ascii_of_string "resdefault.jpg") in Hcases.
    rewrite app_assoc in Hcases.
    apply app_inj_2 in Hcases as [_ Hsuffix]; [discriminate|reflexivity].
  - apply app_inv_tail, list_ascii_of_string_inj in Hcases. split; [done|tauto].
Qed.

Lemma thumbnail_url_injective_witness :
  "AAAAAAAAAAA" = "AAAAAAAAAAA" ∧ ("video" = "song" ↔ "episode" = "song").
Proof.
  apply (thumbnail_url_injective "AAAAAAAAAAA" "video" "AAAAAAAAAAA" "episode").
  reflexivity.
Defined.

(** * Further properties of the audio URL extractor *)

Lemma insert_by_nonempty k s l : insert_by k s l ≠ [].
Proof. destruct l as [|[k' s'] l]; cbn; [done|]. by destruct (k <=? k')%N. Qed.

(** Where a new item lands with respect to the last one. *)
Lemma last_insert_by k s l :
  StronglySorted by_bitrate l →
  last (insert_by k s l)
  = match last l with
    | None => Some (k, s)
    | Some (k', s') => if (k' <? k)%N then Some (k, s) else Some (k', s')
    end.
Proof.
  induction l as [|[k1 s1] l IH]; intros Hl; [done|].
  apply StronglySorted_cons in Hl as Hl'. destruct Hl' as [Hall Hl'].
  cbn [insert_by]. destruct (N.leb_spec k k1) as [Hle|Hgt].
  - rewrite last_cons.
    destruct (last ((k1, s1) :: l)) as [[k' s']|] eqn:Hlast;
      [|by apply last_None in Hlast].
    pose proof (last_sorted_greatest _ _ Hl Hlast (k1, s1) (list_elem_of_here _ _))
      as Hge.
    unfold by_bitrate in Hge. cbn in Hge.
    by destruct (N.ltb_spec k' k); [lia|].
  - rewrite last_cons, (IH Hl'), last_cons.
    destruct (last l) as [[k' s']|]; [by destruct (k' <? k)%N|].
    by destruct (N.ltb_spec k1 k); [|lia].
Qed.

Lemma last_order_by_abr_from s post b :
  abr s = Some b →
  (∀ s' b', s' ∈ post → abr s' = Some b' → (b' < b)%N) →
  last (order_by_abr (s :: post)) = Some (b, s).
Proof.
  intros Hb Hpost. cbn [order_by_abr]. rewrite Hb.
  rewrite last_insert_by by apply order_by_abr_sorted.
  destruct (last (order_by_abr post)) as [[k' s']|] eqn:Hlast; [|done].
  apply last_Some_elem_of, elem_of_order_by_abr in Hlast as [Hin Hk].
  pose proof (Hpost _ _ Hin Hk). by destruct (N.ltb_spec k' b); [|lia].
Qed.

Lemma last_order_by_abr_at pre s post b :
  abr s = Some b →
  (∀ s' b', s' ∈ pre → abr s' = Some b' → (b' ≤ b)%N) →
  (∀ s' b', s' ∈ post → abr s' = Some b' → (b' < b)%N) →
  last (order_by_abr (pre ++ s :: post)) = Some (b, s).
Proof.
  intros Hb Hpre Hpost. induction pre as [|p pre IH].
  { by apply last_order_by_abr_from. }
  cbn [app order_by_abr].
  assert (Hrest : last (order_by_abr (pre ++ s :: post)) = Some (b, s)).
  { apply IH. intros s' b' Hin. apply Hpre. by right. }
  destruct (abr p) as [k|] eqn:Hk; [|done].
  rewrite last_insert_by by apply order_by_abr_sorted. rewrite Hrest.
  pose proof (Hpre p k (list_elem_of_here _ _) Hk).
  by destruct (N.ltb_spec b k); [lia|].
Qed.

(** X8. Among the audio-only mp4 streams, the extractor returns the URL
    of the one after which every bitrate is strictly lower and before
    which none is higher: of several streams with the highest bitrate, the
    one listed last. *)
Theorem extractor_returns_last_of_the_best
    (yt : stream_provider) (video_id : string) (streams : list Stream)
    (pre post : list Stream) (s : Stream) (b : N) :
  yt video_id = Return streams →
  filter_streams "mp4" streams = pre ++ s :: post →
  abr s = Some b →
  (∀ s' b', s' ∈ pre → abr s' = Some b' → (b' ≤ b)%N) →
  (∀ s' b', s' ∈ post → abr s' = Some b' → (b' < b)%N) →
  _extract_audio_url yt video_id = Return (url s).
Proof.
  intros Hyt Hsplit Hb Hpre Hpost. unfold _extract_audio_url.
  rewrite Hyt. cbn [mbind outcome_bind]. rewrite Hsplit.
  by rewrite (last_order_by_abr_at _ _ _ _ Hb Hpre Hpost).
Qed.

Lemma extractor_returns_last_of_the_best_witness :
  _extract_audio_url (yt_streams up_audio) "AAAAAAAAAAA" = Return "u128b".
Proof.
  apply (extractor_returns_last_of_the_best (yt_streams up_audio) "AAAAAAAAAAA"
           [mk_stream true false "mp4" (Some 128%N) "u128";
            mk_stream true false "mp4" (Some 48%N) "u48";
            mk_stream true false "webm" (Some 160%N) "u160";
            mk_stream true true "mp4" (Some 192%N) "u192";
            mk_stream true false "mp4" (Some 128%N) "u128b"]
           [mk_stream true false "mp4" (Some 128%N) "u128";
            mk_stream true false "mp4" (Some 48%N) "u48"]
           []
           (mk_stream true false "mp4" (Some 128%N) "u128b") 128%N);
    [reflexivity|vm_compute; reflexivity|reflexivity| |].
  - intros s' b' Hin Hb.
    rewrite !elem_of_cons, elem_of_nil in Hin.
    destruct Hin as [->|[->|[]]]; cbn in Hb; injection Hb as <-; lia.
  - intros s' b' Hin. by apply elem_of_nil in Hin.
Defined.

(** X9. Once the provider has listed the streams, the extractor fails in
    one way only, with "No audio stream", and it does so exactly when no
    audio-only mp4 stream carries a bitrate: streams without bitrate are
    left out by the sort. *)
Theorem extractor_fails_without_candidate
    (yt : stream_provider) (video_id : string) (streams : list Stream) :
  yt video_id = Return streams →
  (_extract_audio_url yt video_id = Raise (ValueError "No audio stream")
   ↔ ∀ s, s ∈ streams → only_audio s → subtype s = "mp4" → abr s = None)
  ∧ (∀ e, _extract_audio_url yt video_id = Raise e →
          e = ValueError "No audio stream").
Proof.
  intros Hyt. unfold _extract_audio_url. rewrite Hyt. cbn [mbind outcome_bind].
  destruct (last (order_by_abr (filter_streams "mp4" streams)))
    as [[b s]|] eqn:Hlast.
  - split; [|done]. split; [done|]. intros Hnone. exfalso.
    apply last_Some_elem_of, elem_of_order_by_abr in Hlast as [Hin Hb].
    apply elem_of_filter_streams in Hin as (Hin & Hao & Hsub).
    by rewrite (Hnone s Hin Hao Hsub) in Hb.
  - split; [|by intros e [= <-]]. split; [|done]. intros _ s Hin Hao Hsub.
    apply last_None in Hlast.
    destruct (abr s) as [b|] eqn:Hb; [|done]. exfalso.
    assert (Hcand : (b, s) ∈ order_by_abr (filter_streams "mp4" streams))
      by (by apply elem_of_order_by_abr; rewrite elem_of_filter_streams).
    rewrite Hlast in Hcand. by apply elem_of_nil in Hcand.
Qed.

Lemma extractor_fails_without_candidate_witness :
  _extract_audio_url (yt_streams up_no_bitrate) "AAAAAAAAAAA"
  = Raise (ValueError "No audio stream").
Proof.
  destruct (extractor_fails_without_candidate (yt_streams up_no_bitrate)
              "AAAAAAAAAAA"
              [mk_stream true false "mp4" None "a1";
               mk_stream true false "webm" (Some 160%N) "u160"])
    as [[_ Hfail] _]; [reflexivity|].
  apply Hfail. intros s Hin _ Hsub.
  rewrite !elem_of_cons, elem_of_nil in Hin.
  destruct Hin as [->|[->|[]]]; [reflexivity|discriminate].
Defined.

(** * Further properties of the track handler *)

(** The audio stage of a request that misses and resolves. *)
Lemma audio_stage_stores hash up now cache video_id audio_url :
  (1 ≤ TTLCache.maxsize cache)%nat →
  (TTLCache.get cache (hash video_id) now).1 = None →
  wait_for 8000 (elapsed up video_id)
           (_extract_audio_url (yt_streams up) video_id) = Return audio_url →
  ∃ cache1,
    TTLCache.setitem cache (hash video_id) audio_url (now + elapsed up video_id)
    = Return cache1
    ∧ audio_stage hash up now cache video_id
      = ([Streams video_id], cache1, Return audio_url).
Proof.
  intros Hmax Hmiss Hwait.
  destruct (setitem_returns cache (hash video_id) audio_url
              (now + elapsed up video_id) Hmax) as [cache1 Hset].
  exists cache1. split; [done|].
  by rewrite (audio_stage_miss _ _ _ _ _ Hmiss), Hwait, Hset.
Qed.

Lemma track_details_metadata hash up now cache video_id audio_url :
  (audio_stage hash up now cache video_id).2 = Return audio_url →
  (track_details hash up now cache video_id).2
  = match ytm_get_song up video_id with
    | Raise _ => Raise (HTTPException 503 "Metadata unavailable")
    | Return meta =>
        details ← py_getitem meta "videoDetails";
        title ← py_getitem details "title";
        author ← py_getitem details "author";
        thumb ← py_getitem details "thumbnail";
        thumbs ← py_getitem thumb "thumbnails";
        best ← py_last thumbs;
        thumb_url ← py_getitem best "url";
        Return {| td_title := title; td_artist := author;
                  td_thumbnail := thumb_url; td_audioUrl := audio_url |}
    end.
Proof.
  unfold track_details.
  destruct (audio_stage hash up now cache video_id) as [[calls c'] [u|e]]; cbn;
    [by intros [= ->]|done].
Qed.

(** X10. When the metadata query fails after the audio URL was resolved,
    the request fails with 503 "Metadata unavailable" but the URL stays in
    the cache: a later request within the time to live does not list the
    streams again. *)
Theorem metadata_failure_keeps_audio_url
    (hash : string → Z) (up1 up2 : upstream) (now1 now2 : Z)
    (cache : TTLCache.t) (video_id audio_url : string) (e : exn) :
  (1 ≤ TTLCache.maxsize cache)%nat →
  (TTLCache.get cache (hash video_id) now1).1 = None →
  wait_for 8000 (elapsed up1 video_id)
           (_extract_audio_url (yt_streams up1) video_id) = Return audio_url →
  ytm_get_song up1 video_id = Raise e →
  now2 < now1 + elapsed up1 video_id + 1000 * TTLCache.ttl cache →
  let failed := track_details hash up1 now1 cache video_id in
  failed.2 = Raise (HTTPException 503 "Metadata unavailable")
  ∧ failed.1.1 = [Streams video_id; GetSong video_id]
  ∧ (audio_stage hash up2 now2 failed.1.2 video_id).1.1 = []
  ∧ (audio_stage hash up2 now2 failed.1.2 video_id).2 = Return audio_url.
Proof.
  intros Hmax Hmiss Hwait Hmeta Hin failed.
  destruct (audio_stage_stores _ _ _ _ _ _ Hmax Hmiss Hwait) as (cache1 & Hset & Hrun).
  subst failed. rewrite track_details_cache, track_details_calls.
  rewrite (track_details_metadata _ _ _ _ _ audio_url) by (by rewrite Hrun).
  rewrite Hrun, Hmeta. cbn [fst snd app].
  split; [done|]. split; [done|].
  pose proof (get_after_setitem _ _ _ _ _ now2 Hset) as Hget.
  rewrite bool_decide_eq_true_2 in Hget by done.
  by rewrite (audio_stage_hit hash up2 _ _ _ _ Hget).
Qed.

Lemma metadata_failure_keeps_audio_url_witness :
  let failed := track_details length_hash up_meta_down 0 (audio_cache None)
                  "AAAAAAAAAAA" in
  failed.2 = Raise (HTTPException 503 "Metadata unavailable")
  ∧ failed.1.1 = [Streams "AAAAAAAAAAA"; GetSong "AAAAAAAAAAA"]
  ∧ (audio_stage length_hash up_broken 5000 failed.1.2 "AAAAAAAAAAA").1.1 = []
  ∧ (audio_stage length_hash up_broken 5000 failed.1.2 "AAAAAAAAAAA").2
    = Return "u128b".
Proof.
  apply (metadata_failure_keeps_audio_url length_hash up_meta_down up_broken
           0 5000 (audio_cache None) "AAAAAAAAAAA" "u128b"
           (ProviderError "connection reset"));
    [simpl; lia|reflexivity|reflexivity|reflexivity|simpl; lia].
Defined.

(** X11. A request whose audio stage and metadata query succeed answers
    with the title and the author of the video details, with the URL of
    the LAST entry of the metadata's thumbnail list, and with the audio
    URL. *)
Theorem track_details_takes_last_thumbnail
    (hash : string → Z) (up : upstream) (now : Z) (cache : TTLCache.t)
    (video_id audio_url : string)
    (meta details thumbnail best : record) (title author thumb_url : pyval)
    (thumbnails : list pyval) :
  (audio_stage hash up now cache video_id).2 = Return audio_url →
  ytm_get_song up video_id = Return (PDict meta) →
  meta !! "videoDetails" = Some (PDict details) →
  details !! "title" = Some title →
  details !! "author" = Some author →
  details !! "thumbnail" = Some (PDict thumbnail) →
  thumbnail !! "thumbnails" = Some (PList (thumbnails ++ [PDict best])) →
  best !! "url" = Some thumb_url →
  (track_details hash up now cache video_id).2
  = Return {| td_title := title; td_artist := author;
              td_thumbnail := thumb_url; td_audioUrl := audio_url |}.
Proof.
  intros Haudio Hmeta Hd Ht Ha Hth Hths Hurl.
  rewrite (track_details_metadata _ _ _ _ _ _ Haudio), Hmeta.
  cbn [py_getitem]. rewrite Hd. cbn [mbind outcome_bind py_getitem].
  rewrite Ht, Ha, Hth. cbn [mbind outcome_bind py_getitem].
  rewrite Hths. cbn [mbind outcome_bind py_last]. rewrite last_snoc.
  cbn [mbind outcome_bind py_getitem]. by rewrite Hurl.
Qed.

Lemma track_details_takes_last_thumbnail_witness :
  (track_details length_hash up_audio 0 (audio_cache None) "AAAAAAAAAAA").2
  = Return {| td_title := PStr "T1"; td_artist := PStr "X";
              td_thumbnail := PStr "large.jpg"; td_audioUrl := "u128b" |}.
Proof.
  apply (track_details_takes_last_thumbnail length_hash up_audio 0
           (audio_cache None) "AAAAAAAAAAA" "u128b"
           (dict [("videoDetails",
               PDict (dict [("title", PStr "T1"); ("author", PStr "X");
                            ("thumbnail",
                             PDict (dict [("thumbnails",
                               PList [PDict (dict [("url", PStr "small.jpg")]);
                                      PDict (dict [("url", PStr "large.jpg")])])]))]))])
           (dict [("title", PStr "T1"); ("author", PStr "X");
                  ("thumbnail",
                   PDict (dict [("thumbnails",
                     PList [PDict (dict [("url", PStr "small.jpg")]);
                            PDict (dict [("url", PStr "large.jpg")])])]))])
           (dict [("thumbnails",
                   PList [PDict (dict [("url", PStr "small.jpg")]);
                          PDict (dict [("url", PStr "large.jpg")])])])
           (dict [("url", PStr "large.jpg")])
           (PStr "T1") (PStr "X") (PStr "large.jpg")
           [PDict (dict [("url", PStr "small.jpg")])]);
    reflexivity.
Defined.

Lemma py_getitem_raises v k e :
  py_getitem v k = Raise e → e = KeyError ∨ e = TypeError.
Proof.
  destruct v as [| | |d]; cbn; try (intros [= <-]; by right).
  destruct (d !! k); [done|]. intros [= <-]. by left.
Qed.

Lemma py_last_raises v e :
  py_last v = Raise e → e = KeyError ∨ e = IndexError ∨ e = TypeError.
Proof.
  destruct v as [|s|l|d]; cbn.
  - intros [= <-]. tauto.
  - destruct (last _); [done|]. intros [= <-]. tauto.
  - destruct (last l); [done|]. intros [= <-]. tauto.
  - intros [= <-]. tauto.
Qed.

(** X12. Only a failing metadata QUERY is answered 503: when the query
    returns, a key that is missing from the metadata, or an empty
    thumbnail list, leaves the handler as an unhandled [KeyError],
    [IndexError] or [TypeError], a 500; metadata without "videoDetails"
    gives the [KeyError]. *)
Theorem malformed_metadata_is_unhandled
    (hash : string → Z) (up : upstream) (now : Z) (cache : TTLCache.t)
    (video_id audio_url : string) (meta : pyval) :
  (audio_stage hash up now cache video_id).2 = Return audio_url →
  ytm_get_song up video_id = Return meta →
  let out := (track_details hash up now cache video_id).2 in
  status_of out ∈ [200; 500]
  ∧ (∀ e, out = Raise e → e = KeyError ∨ e = IndexError ∨ e = TypeError)
  ∧ (∀ m, meta = PDict m → m !! "videoDetails" = None → out = Raise KeyError).
Proof.
  intros Haudio Hmeta out. subst out.
  rewrite (track_details_metadata _ _ _ _ _ _ Haudio), Hmeta.
  assert (Hraise : ∀ e,
    (details ← py_getitem meta "videoDetails";
     title ← py_getitem details "title";
     author ← py_getitem details "author";
     thumb ← py_getitem details "thumbnail";
     thumbs ← py_getitem thumb "thumbnails";
     best ← py_last thumbs;
     thumb_url ← py_getitem best "url";
     Return {| td_title := title; td_artist := author;
               td_thumbnail := thumb_url; td_audioUrl := audio_url |}) = Raise e →
    e = KeyError ∨ e = IndexError ∨ e = TypeError).
  { intros e.
    repeat match goal with
           | |- context [mbind _ (py_getitem ?v ?k)] =>
               let H := fresh "H" in
               destruct (py_getitem v k) eqn:H; cbn [mbind outcome_bind];
               [|intros [= <-]; apply py_getitem_raises in H; tauto]
           | |- context [mbind _ (py_last ?v)] =>
               let H := fresh "H" in
               destruct (py_last v) eqn:H; cbn [mbind outcome_bind];
               [|intros [= <-]; apply py_last_raises in H; tauto]
           end.
    done. }
  split; [|split].
  - destruct (mbind _ _) as [d|e]; [cbn; set_solver|].
    destruct (Hraise e eq_refl) as [->|[->| ->]]; cbn; set_solver.
  - exact Hraise.
  - intros m -> Hnone. cbn [py_getitem]. by rewrite Hnone.
Qed.

Lemma malformed_metadata_is_unhandled_witness :
  (track_details length_hash up_meta_bare 0 (audio_cache None) "AAAAAAAAAAA").2
  = Raise KeyError.
Proof.
  destruct (malformed_metadata_is_unhandled length_hash up_meta_bare 0
              (audio_cache None) "AAAAAAAAAAA" "u128b"
              (PDict (dict [("playabilityStatus", PNone)])))
    as (_ & _ & Hbare); [reflexivity|reflexivity|].
  apply (Hbare (dict [("playabilityStatus", PNone)])); reflexivity.
Defined.

Lemma metadata_status hash up now cache video_id audio_url :
  (audio_stage hash up now cache video_id).2 = Return audio_url →
  status_of (track_details hash up now cache video_id).2 ∈ [200; 500; 503].
Proof.
  intros Haudio. rewrite (track_details_metadata _ _ _ _ _ _ Haudio).
  destruct (ytm_get_song up video_id) as [meta|]; [|cbn; set_solver].
  repeat match goal with
         | |- context [mbind _ (py_getitem ?v ?k)] =>
             let H := fresh "H" in
             destruct (py_getitem v k) eqn:H; cbn [mbind outcome_bind];
             [|apply py_getitem_raises in H as [->| ->]; cbn; set_solver]
         | |- context [mbind _ (py_last ?v)] =>
             let H := fresh "H" in
             destruct (py_last v) eqn:H; cbn [mbind outcome_bind];
             [|apply py_last_raises in H as [->|[->| ->]]; cbn; set_solver]
         end.
  cbn. set_solver.
Qed.

Lemma setitem_raises c k v time e :
  TTLCache.setitem c k v time = Raise e → e = ValueError "value too large".
Proof.
  unfold TTLCache.setitem. destruct (bool_decide _); [|done]. by intros [= <-].
Qed.

(** X13. The track handler answers 200, 500, 503 or 504 and nothing
    else, and 504 exactly when the request misses the cache and either
    the extraction outlasts the 8 seconds or, in time, raises a timeout
    error of its own. *)
Theorem track_status_classes
    (hash : string → Z) (up : upstream) (now : Z) (cache : TTLCache.t)
    (video_id : string) :
  let out := (track_details hash up now cache video_id).2 in
  status_of out ∈ [200; 500; 503; 504]
  ∧ (status_of out = 504
     ↔ (TTLCache.get cache (hash video_id) now).1 = None
       ∧ (8000 < elapsed up video_id
          ∨ _extract_audio_url (yt_streams up) video_id = Raise TimeoutError)).
Proof.
  cbn zeta.
  assert (Hok : ∀ u, (audio_stage hash up now cache video_id).2 = Return u →
    status_of (track_details hash up now cache video_id).2 ∈ [200; 500; 503; 504]
    ∧ status_of (track_details hash up now cache video_id).2 ≠ 504).
  { intros u Hu. pose proof (metadata_status _ _ _ _ _ _ Hu) as Hst.
    split; [set_solver|]. intros Heq. rewrite Heq in Hst. set_solver. }
  destruct ((TTLCache.get cache (hash video_id) now).1) as [u|] eqn:Hget.
  - destruct (Hok u) as [Hin Hne];
      [by rewrite (audio_stage_hit _ _ _ _ _ _ Hget)|].
    split; [done|]. split; [done|]. by intros [? _].
  - pose proof (audio_stage_miss hash up _ _ _ Hget) as Hrun.
    unfold wait_for in Hrun.
    destruct (Z.ltb_spec 8000 (elapsed up video_id)) as [Hlate|Hsoon].
    { rewrite (track_details_audio_failure _ _ _ _ _
                 (HTTPException 504 "Audio timeout")) by (by rewrite Hrun).
      cbn. split; [set_solver|]. split; [auto|done]. }
    destruct (_extract_audio_url (yt_streams up) video_id) as [u|e] eqn:Hx.
    + destruct (TTLCache.setitem cache (hash video_id) u _) as [c1|e] eqn:Hset.
      * destruct (Hok u) as [Hin Hne]; [by rewrite Hrun|].
        split; [done|]. split; [done|]. intros [_ [?|?]]; [lia|done].
      * apply setitem_raises in Hset as Heq. subst e.
        rewrite (track_details_audio_failure _ _ _ _ _
                   (ValueError "value too large")) by (by rewrite Hrun).
        cbn. split; [set_solver|]. split; [done|].
        intros [_ [?|?]]; [lia|done].
    + assert (e = TimeoutError ∨ e ≠ TimeoutError) as [->|Hne]
        by (destruct e; (by left) || (by right)).
      * rewrite (track_details_audio_failure _ _ _ _ _
                   (HTTPException 504 "Audio timeout")) by (by rewrite Hrun).
        cbn. split; [set_solver|]. split; [auto|done].
      * rewrite (track_details_audio_failure _ _ _ _ _
                   (HTTPException 503 "Audio extraction failed"))
          by (rewrite Hrun; by destruct e).
        cbn. split; [set_solver|]. split; [done|].
        intros [_ [?|[= ?]]]; [lia|done].
Qed.

(** X14. Metadata is never cached: the handler queries it in every
    request that has an audio URL, from the cache or from the extractor,
    and in no other; a hit lists no stream and a miss lists the streams
    once, before the metadata query. *)
Theorem metadata_is_queried_each_time
    (hash : string → Z) (up : upstream) (now : Z) (cache : TTLCache.t)
    (video_id : string) :
  let calls := (track_details hash up now cache video_id).1.1 in
  (GetSong video_id ∈ calls
   ↔ ∃ audio_url, (audio_stage hash up now cache video_id).2 = Return audio_url)
  ∧ (is_Some (TTLCache.get cache (hash video_id) now).1 →
     calls = [GetSong video_id])
  ∧ ((TTLCache.get cache (hash video_id) now).1 = None →
     calls = [Streams video_id; GetSong video_id] ∨ calls = [Streams video_id]).
Proof.
  cbn zeta. rewrite track_details_calls.
  destruct ((TTLCache.get cache (hash video_id) now).1) as [u|] eqn:Hget.
  - rewrite (audio_stage_hit _ _ _ _ _ _ Hget). cbn [fst snd app].
    split; [|split; [done|by intros ?]].
    split; [eauto|]. intros _. apply list_elem_of_here.
  - assert (Hcalls : (audio_stage hash up now cache video_id).1.1
                     = [Streams video_id]).
    { rewrite (audio_stage_miss _ _ _ _ _ Hget).
      destruct (wait_for 8000 _ _) as [u|e]; [|by destruct e].
      by destruct (TTLCache.setitem cache _ _ _). }
    rewrite Hcalls.
    destruct ((audio_stage hash up now cache video_id).2) as [u|e]; cbn [app].
    + split; [|split; [by intros [? [=]]|by left]].
      split; [eauto|]. intros _. apply list_elem_of_further, list_elem_of_here.
    + split; [|split; [by intros [? [=]]|by right]].
      split; [|by intros [? [=]]].
      rewrite list_elem_of_singleton. discriminate.
Qed.

(** X15. The cache is keyed by the hash of the identifier alone: once a
    track is resolved, a request within the time to live for another
    track with the same hash gets the URL of the first track, and the
    streams of the second are not listed. *)
Theorem colliding_hashes_share_an_entry
    (hash : string → Z) (up1 up2 : upstream) (now1 now2 : Z)
    (cache : TTLCache.t) (video_id other_id audio_url : string) :
  hash other_id = hash video_id →
  (1 ≤ TTLCache.maxsize cache)%nat →
  (TTLCache.get cache (hash video_id) now1).1 = None →
  wait_for 8000 (elapsed up1 video_id)
           (_extract_audio_url (yt_streams up1) video_id) = Return audio_url →
  now2 < now1 + elapsed up1 video_id + 1000 * TTLCache.ttl cache →
  let cache1 := (audio_stage hash up1 now1 cache video_id).1.2 in
  (audio_stage hash up2 now2 cache1 other_id).1.1 = []
  ∧ (audio_stage hash up2 now2 cache1 other_id).2 = Return audio_url.
Proof.
  intros Hhash Hmax Hmiss Hwait Hin cache1. subst cache1.
  destruct (audio_stage_stores _ _ _ _ _ _ Hmax Hmiss Hwait) as (c1 & Hset & ->).
  cbn [fst snd].
  pose proof (get_after_setitem _ _ _ _ _ now2 Hset) as Hget.
  rewrite bool_decide_eq_true_2, <- Hhash in Hget by done.
  by rewrite (audio_stage_hit hash up2 _ _ _ _ Hget).
Qed.

Lemma colliding_hashes_share_an_entry_witness :
  let cache1 := (audio_stage length_hash up_audio 0 (audio_cache None)
                   "AAAAAAAAAAA").1.2 in
  length_hash "BBBBBBBBBBB" = length_hash "AAAAAAAAAAA"
  ∧ (audio_stage length_hash up_no_audio 5000 cache1 "BBBBBBBBBBB").1.1 = []
  ∧ (audio_stage length_hash up_no_audio 5000 cache1 "BBBBBBBBBBB").2
    = Return "u128b".
Proof.
  split; [reflexivity|].
  apply (colliding_hashes_share_an_entry length_hash up_audio up_no_audio 0 5000
           (audio_cache None) "AAAAAAAAAAA" "BBBBBBBBBBB" "u128b");
    [reflexivity|simpl; lia|reflexivity|reflexivity|simpl; lia].
Defined.

Lemma find_key_filter (k : Z) (P : TTLCache.link → Prop)
    `{∀ l, Decision (P l)} (ls : list TTLCache.link) :
  (∀ l, TTLCache.key l = k → P l) →
  List.find (λ l, bool_decide (TTLCache.key l = k)) (filter P ls)
  = List.find (λ l, bool_decide (TTLCache.key l = k)) ls.
Proof.
  intros HP. induction ls as [|l ls IH]; [done|].
  cbn [List.find]. destruct (decide (TTLCache.key l = k)) as [Hk|Hk].
  - rewrite filter_cons_True by auto. cbn [List.find].
    by rewrite bool_decide_eq_true_2.
  - rewrite (bool_decide_eq_false_2 _ Hk).
    destruct (decide (P l)).
    + rewrite filter_cons_True by done. cbn [List.find].
      by rewrite (bool_decide_eq_false_2 _ Hk).
    + by rewrite filter_cons_False.
Qed.

(** Looking a key up again after a hit. *)
Lemma get_after_hit c k time v time' :
  (TTLCache.get c k time).1 = Some v →
  ∃ l, l ∈ TTLCache.links c ∧ TTLCache.key l = k ∧ TTLCache.value l = v
       ∧ time < TTLCache.expires l
       ∧ (TTLCache.get (TTLCache.get c k time).2 k time').1
         = if bool_decide (time' < TTLCache.expires l) then Some v else None.
Proof.
  unfold TTLCache.get at 1 3.
  destruct (List.find _ (TTLCache.links c)) as [l|] eqn:Hfind; [|done].
  destruct (TTLCache.live time l) eqn:Hlive; [|done]. cbn [fst snd].
  intros [= <-]. apply find_some in Hfind as [Hin Hk].
  apply bool_decide_eq_true_1 in Hk. unfold TTLCache.live in Hlive.
  exists l. split; [by apply list_elem_of_In|]. split; [done|]. split; [done|].
  split; [lia|].
  unfold TTLCache.get. cbn [TTLCache.links TTLCache.with_links].
  rewrite find_app_None.
  2: { apply find_key_None. intros Hin'.
       apply list_elem_of_fmap in Hin' as (l' & Hk' & Hl').
       by apply list_elem_of_filter in Hl' as [Hne _]. }
  cbn [List.find]. rewrite bool_decide_eq_true_2 by done.
  unfold TTLCache.live.
  case_bool_decide; destruct (Z.ltb_spec time' (TTLCache.expires l)); done || lia.
Qed.

(** X16. A hit does not renew an entry: the time to live runs from the
    store.  After a request has resolved and stored a URL and a second
    request has hit it, a third request gets the stored URL before the
    time to live has run out since the store, and lists the streams again
    from then on, however late the second request came. *)
Theorem hits_do_not_extend_lifetime
    (hash : string → Z) (up1 up2 up3 : upstream) (now1 now2 now3 : Z)
    (cache : TTLCache.t) (video_id audio_url : string) :
  (1 ≤ TTLCache.maxsize cache)%nat →
  (TTLCache.get cache (hash video_id) now1).1 = None →
  wait_for 8000 (elapsed up1 video_id)
           (_extract_audio_url (yt_streams up1) video_id) = Return audio_url →
  let expiry := now1 + elapsed up1 video_id + 1000 * TTLCache.ttl cache in
  now2 < expiry →
  let cache1 := (audio_stage hash up1 now1 cache video_id).1.2 in
  let cache2 := (audio_stage hash up2 now2 cache1 video_id).1.2 in
  (audio_stage hash up2 now2 cache1 video_id).1.1 = []
  ∧ (now3 < expiry →
     (audio_stage hash up3 now3 cache2 video_id).1.1 = []
     ∧ (audio_stage hash up3 now3 cache2 video_id).2 = Return audio_url)
  ∧ (expiry ≤ now3 →
     (audio_stage hash up3 now3 cache2 video_id).1.1 = [Streams video_id]).
Proof.
  intros Hmax Hmiss Hwait expiry Hin cache1 cache2. subst cache1 cache2.
  destruct (audio_stage_stores _ _ _ _ _ _ Hmax Hmiss Hwait) as (c1 & Hset & ->).
  cbn [fst snd].
  pose proof (get_after_setitem _ _ _ _ _ now2 Hset) as Hget.
  rewrite bool_decide_eq_true_2 in Hget by done.
  rewrite (audio_stage_hit hash up2 _ _ _ _ Hget). cbn [fst snd].
  split; [done|].
  destruct (get_after_hit _ _ _ _ now3 Hget) as (l & Hl & Hk & Hv & _ & Hagain).
  assert (Hexp : TTLCache.expires l = expiry).
  { destruct (setitem_links _ _ _ _ _ Hset) as (kept & Hlinks & Hkept & _).
    rewrite Hlinks in Hl. apply elem_of_app in Hl as [Hl|Hl].
    - exfalso. apply Hkept, list_elem_of_fmap. by exists l.
    - apply list_elem_of_singleton in Hl as ->. done. }
  rewrite Hexp in Hagain. split.
  - intros Hlive. rewrite bool_decide_eq_true_2 in Hagain by done.
    by rewrite (audio_stage_hit hash up3 _ _ _ _ Hagain).
  - intros Hdead. rewrite bool_decide_eq_false_2 in Hagain by lia.
    rewrite (audio_stage_miss hash up3 _ _ _ Hagain).
    destruct (wait_for 8000 (elapsed up3 video_id) _) as [u|e]; [|by destruct e].
    by destruct (TTLCache.setitem _ _ u _).
Qed.

Lemma hits_do_not_extend_lifetime_witness :
  let cache1 := (audio_stage length_hash up_audio 0 (audio_cache None)
                   "AAAAAAAAAAA").1.2 in
  let cache2 := (audio_stage length_hash up_broken 301199 cache1
                   "AAAAAAAAAAA").1.2 in
  (audio_stage length_hash up_broken 301199 cache1 "AAAAAAAAAAA").1.1 = []
  ∧ (audio_stage length_hash up_broken 301200 cache2 "AAAAAAAAAAA").1.1
    = [Streams "AAAAAAAAAAA"].
Proof.
  intros cache1 cache2.
  destruct (hits_do_not_extend_lifetime length_hash up_audio up_broken up_broken
              0 301199 301200 (audio_cache None) "AAAAAAAAAAA" "u128b")
    as (Hhit & _ & Hmiss); [simpl; lia|reflexivity|reflexivity|simpl; lia|].
  split; [exact Hhit|]. apply Hmiss. simpl. lia.
Defined.

Lemma track_status_classes_witness :
  status_of (track_details length_hash up_socket_timeout 0 (audio_cache None)
               "AAAAAAAAAAA").2 = 504
  ∧ ¬ (8000 < elapsed up_socket_timeout "AAAAAAAAAAA").
Proof.
  split; [|simpl; lia].
  destruct (track_status_classes length_hash up_socket_timeout 0
              (audio_cache None) "AAAAAAAAAAA") as [_ [_ H504]].
  apply H504. split; [reflexivity|]. right. reflexivity.
Defined.

(** ** The cache across requests *)

Lemma cache_ok_get c k time : cache_ok c → cache_ok (TTLCache.get c k time).2.
Proof.
  intros [Hnd Hlen]. unfold TTLCache.get.
  destruct (List.find _ (TTLCache.links c)) as [l|] eqn:Hfind; [|done].
  destruct (TTLCache.live time l); [|done].
  apply find_some in Hfind as [Hin Hk]. apply bool_decide_eq_true_1 in Hk.
  apply list_elem_of_In in Hin.
  unfold cache_ok. cbn [snd TTLCache.links TTLCache.with_links TTLCache.maxsize].
  split.
  - rewrite fmap_app. apply NoDup_app. split; [|split].
    + eapply sublist_NoDup; [exact Hnd|]. apply fmap_sublist, sublist_filter.
    + intros k' Hk' Hl. apply list_elem_of_singleton in Hl. cbn in Hl. subst k'.
      apply list_elem_of_fmap in Hk' as (l' & Hkl' & Hl').
      apply list_elem_of_filter in Hl' as [Hne _]. congruence.
    + apply NoDup_singleton.
  - rewrite length_app. cbn [length].
    pose proof (length_filter_lt (λ l', TTLCache.key l' ≠ k) _ l Hin) as Hlt.
    assert (¬ TTLCache.key l ≠ k) as Hnn by (intros Hne; by apply Hne).
    specialize (Hlt Hnn). lia.
Qed.

Lemma cache_ok_setitem c k v time c' :
  cache_ok c → TTLCache.setitem c k v time = Return c' → cache_ok c'.
Proof.
  intros [Hnd Hlen] Hset.
  destruct (setitem_links _ _ _ _ _ Hset) as (kept & Hlinks & Hk & _ & Hmax).
  revert Hset Hlinks. unfold TTLCache.setitem.
  destruct (bool_decide (TTLCache.maxsize c < 1)%nat) eqn:Hsmall; [done|].
  apply bool_decide_eq_false_1 in Hsmall.
  set (unexpired := filter _ (TTLCache.links c)).
  assert (Hsub : unexpired `sublist_of` TTLCache.links c) by apply sublist_filter.
  pose proof (sublist_length _ _ Hsub) as Hlen'.
  intros [= <-]. cbn [TTLCache.links TTLCache.with_links].
  intros Heq. apply app_inj_tail in Heq as [<- _].
  unfold cache_ok. cbn [TTLCache.links TTLCache.with_links TTLCache.maxsize].
  destruct (bool_decide (k ∈ TTLCache.key <$> unexpired)) eqn:Hpresent.
  - apply bool_decide_eq_true_1 in Hpresent.
    apply list_elem_of_fmap in Hpresent as (l & Hkl & Hl).
    split.
    + rewrite fmap_app. apply NoDup_app. split; [|split].
      * eapply sublist_NoDup; [exact Hnd|].
        apply fmap_sublist. etrans; [apply sublist_filter|exact Hsub].
      * intros k' Hk' Heq. apply list_elem_of_singleton in Heq. cbn in Heq.
        subst k'. by apply Hk.
      * apply NoDup_singleton.
    + rewrite length_app. cbn [length].
      pose proof (length_filter_lt (λ l', TTLCache.key l' ≠ k) _ l Hl) as Hlt.
      assert (¬ TTLCache.key l ≠ k) as Hnn by (intros Hne; by apply Hne).
      specialize (Hlt Hnn). lia.
  - split.
    + rewrite fmap_app. apply NoDup_app. split; [|split].
      * eapply sublist_NoDup; [exact Hnd|].
        apply fmap_sublist. etrans; [apply sublist_drop|exact Hsub].
      * intros k' Hk' Heq. apply list_elem_of_singleton in Heq. cbn in Heq.
        subst k'. by apply Hk.
      * apply NoDup_singleton.
    + rewrite length_app, length_drop. cbn [length]. lia.
Qed.

(** No request changes the size limit of the cache. *)
Lemma track_details_maxsize hash up now cache video_id :
  TTLCache.maxsize (track_details hash up now cache video_id).1.2
  = TTLCache.maxsize cache.
Proof.
  rewrite track_details_cache. unfold audio_stage, TTLCache.get.
  destruct (List.find _ (TTLCache.links cache)) as [l|].
  - destruct (TTLCache.live now l); [done|].
    destruct (wait_for 8000 _ _) as [u|e]; [|by destruct e].
    destruct (TTLCache.setitem cache (hash video_id) u _) as [c2|e] eqn:Hset;
      [|done].
    by destruct (setitem_links _ _ _ _ _ Hset) as (kept & _ & _ & _ & Hmax).
  - destruct (wait_for 8000 _ _) as [u|e]; [|by destruct e].
    destruct (TTLCache.setitem cache (hash video_id) u _) as [c2|e] eqn:Hset;
      [|done].
    by destruct (setitem_links _ _ _ _ _ Hset) as (kept & _ & _ & _ & Hmax).
Qed.

(** X17. Requests keep the cache within its bounds: if it holds at most
    [maxsize] items under pairwise different keys before a request, it
    does so after it, whatever the outcome of the request; and its size
    limit and time to live are never changed. *)
Theorem track_details_keeps_cache_bounded
    (hash : string → Z) (up : upstream) (now : Z) (cache : TTLCache.t)
    (video_id : string) :
  cache_ok cache →
  let cache' := (track_details hash up now cache video_id).1.2 in
  cache_ok cache'
  ∧ TTLCache.maxsize cache' = TTLCache.maxsize cache
  ∧ TTLCache.ttl cache' = TTLCache.ttl cache.
Proof.
  intros Hok. cbn zeta. rewrite track_details_cache. unfold audio_stage.
  pose proof (cache_ok_get cache (hash video_id) now Hok) as Hget.
  assert (Hsame : TTLCache.maxsize (TTLCache.get cache (hash video_id) now).2
                  = TTLCache.maxsize cache
                  ∧ TTLCache.ttl (TTLCache.get cache (hash video_id) now).2
                    = TTLCache.ttl cache).
  { unfold TTLCache.get. destruct (List.find _ _) as [l|]; [|done].
    by destruct (TTLCache.live now l). }
  destruct (TTLCache.get cache (hash video_id) now) as [[u|] c1];
    cbn [fst snd] in *; [done|].
  destruct (wait_for 8000 _ _) as [u|e]; [|by destruct e].
  destruct (TTLCache.setitem c1 (hash video_id) u _) as [c2|e] eqn:Hset;
    cbn [fst snd]; [|done].
  split; [by eapply cache_ok_setitem|].
  destruct (setitem_links _ _ _ _ _ Hset) as (kept & _ & _ & Httl & Hmax).
  destruct Hsame. split; congruence.
Qed.

Lemma track_details_keeps_cache_bounded_witness :
  cache_ok (track_details length_hash up_audio 0 (audio_cache (Some 60))
              "AAAAAAAAAAA").1.2.
Proof.
  apply (track_details_keeps_cache_bounded length_hash up_audio 0
           (audio_cache (Some 60)) "AAAAAAAAAAA").
  split; [constructor|cbn; lia].
Defined.

Lemma find_app_Some {A} (f : A → bool) (l1 l2 : list A) x :
  List.find f l1 = Some x → List.find f (l1 ++ l2) = Some x.
Proof.
  induction l1 as [|y l1 IH]; [done|]. cbn [List.find app].
  destruct (f y); [done|exact IH].
Qed.

Lemma find_key_snoc_ne (k : Z) (ls : list TTLCache.link) (l : TTLCache.link) :
  TTLCache.key l ≠ k →
  List.find (λ l', bool_decide (TTLCache.key l' = k)) (ls ++ [l])
  = List.find (λ l', bool_decide (TTLCache.key l' = k)) ls.
Proof.
  intros Hne.
  destruct (List.find _ ls) as [x|] eqn:Hfind.
  - by apply find_app_Some.
  - rewrite (find_app_None _ _ _ Hfind). cbn [List.find].
    by rewrite bool_decide_eq_false_2.
Qed.

(** Under pairwise different keys, removing items leaves at most the
    item that was under a key. *)
Lemma find_key_filter_NoDup (k : Z) (P : TTLCache.link → Prop)
    `{∀ l, Decision (P l)} (ls : list TTLCache.link) :
  NoDup (TTLCache.key <$> ls) →
  List.find (λ l, bool_decide (TTLCache.key l = k)) (filter P ls)
  = match List.find (λ l, bool_decide (TTLCache.key l = k)) ls with
    | Some l => if decide (P l) then Some l else None
    | None => None
    end.
Proof.
  induction ls as [|l ls IH]; [done|]. rewrite fmap_cons.
  intros [Hl Hnd]%NoDup_cons. cbn [List.find].
  destruct (decide (TTLCache.key l = k)) as [Hk|Hk].
  - rewrite (bool_decide_eq_true_2 _ Hk). destruct (decide (P l)).
    + rewrite filter_cons_True by done. cbn [List.find].
      by rewrite bool_decide_eq_true_2.
    + rewrite filter_cons_False by done. apply find_key_None.
      intros Hin. apply Hl. rewrite Hk.
      eapply elem_of_sublist; [exact Hin|]. apply fmap_sublist, sublist_filter.
  - rewrite (bool_decide_eq_false_2 _ Hk). destruct (decide (P l)).
    + rewrite filter_cons_True by done. cbn [List.find].
      rewrite (bool_decide_eq_false_2 _ Hk). by apply IH.
    + rewrite filter_cons_False by done. by apply IH.
Qed.

Lemma get_other_after_get c k1 k2 time time' :
  k1 ≠ k2 →
  (TTLCache.get (TTLCache.get c k2 time).2 k1 time').1
  = (TTLCache.get c k1 time').1.
Proof.
  intros Hne. unfold TTLCache.get at 2.
  destruct (List.find _ (TTLCache.links c)) as [l2|] eqn:Hfind; [|done].
  destruct (TTLCache.live time l2); [|done]. cbn [snd].
  apply find_some in Hfind as [_ Hk2]. apply bool_decide_eq_true_1 in Hk2.
  unfold TTLCache.get. cbn [TTLCache.links TTLCache.with_links].
  rewrite find_key_snoc_ne by congruence.
  rewrite find_key_filter by (intros l Hl; congruence).
  destruct (List.find _ (TTLCache.links c)) as [l|]; [|done].
  by destruct (TTLCache.live time' l).
Qed.

Lemma get_other_after_setitem c k1 k2 v time time' c' :
  cache_ok c → k1 ≠ k2 →
  (length (TTLCache.links c) < TTLCache.maxsize c)%nat →
  time ≤ time' →
  TTLCache.setitem c k2 v time = Return c' →
  (TTLCache.get c' k1 time').1 = (TTLCache.get c k1 time').1.
Proof.
  intros [Hnd _] Hne Hroom Hlater. unfold TTLCache.setitem.
  destruct (bool_decide (TTLCache.maxsize c < 1)%nat); [done|].
  set (unexpired := filter _ (TTLCache.links c)).
  assert (Hlen : (length unexpired ≤ length (TTLCache.links c))%nat)
    by apply length_filter.
  intros [= <-]. unfold TTLCache.get. cbn [TTLCache.links TTLCache.with_links].
  rewrite find_key_snoc_ne by (cbn; congruence).
  assert (Hkept :
    List.find (λ l, bool_decide (TTLCache.key l = k1))
      (if bool_decide (k2 ∈ TTLCache.key <$> unexpired)
       then filter (λ l, TTLCache.key l ≠ k2) unexpired
       else drop (length unexpired + 1 - TTLCache.maxsize c) unexpired)
    = List.find (λ l, bool_decide (TTLCache.key l = k1)) unexpired).
  { destruct (bool_decide (k2 ∈ TTLCache.key <$> unexpired)).
    - apply find_key_filter. intros l Hl. congruence.
    - replace (length unexpired + 1 - TTLCache.maxsize c)%nat with 0%nat by lia.
      done. }
  rewrite Hkept. subst unexpired. rewrite (find_key_filter_NoDup _ _ _ Hnd).
  destruct (List.find _ (TTLCache.links c)) as [l|]; [|done].
  unfold TTLCache.live.
  destruct (decide ((time <? TTLCache.expires l) = true)) as [Hlive|Hdead].
  - destruct (time' <? TTLCache.expires l); done.
  - destruct (Z.ltb_spec time (TTLCache.expires l)); [done|].
    by destruct (Z.ltb_spec time' (TTLCache.expires l)); [lia|].
Qed.

(** What the audio stage makes of the cache: the lookup and the size
    limit. *)
Lemma audio_stage_same_lookup hash up now c c' video_id :
  (TTLCache.get c' (hash video_id) now).1 = (TTLCache.get c (hash video_id) now).1 →
  TTLCache.maxsize c' = TTLCache.maxsize c →
  (audio_stage hash up now c' video_id).1.1 = (audio_stage hash up now c video_id).1.1
  ∧ (audio_stage hash up now c' video_id).2 = (audio_stage hash up now c video_id).2.
Proof.
  intros Hget Hmax.
  destruct ((TTLCache.get c (hash video_id) now).1) as [u|] eqn:Hc.
  - by rewrite (audio_stage_hit _ _ _ _ _ _ Hc), (audio_stage_hit _ _ _ _ _ _ Hget).
  - rewrite (audio_stage_miss _ _ _ _ _ Hc), (audio_stage_miss _ _ _ _ _ Hget).
    destruct (wait_for 8000 _ _) as [u|e]; [|by destruct e].
    unfold TTLCache.setitem. rewrite Hmax.
    by destruct (bool_decide (TTLCache.maxsize c < 1)%nat).
Qed.

(** X18. A request for one track leaves the entries of the tracks with
    another hash alone, as long as the cache has room: after it, a
    request for such a track hits or misses, and answers its audio stage,
    exactly as it would have done without it. *)
Theorem other_tracks_keep_their_entry
    (hash : string → Z) (up up' : upstream) (now now' : Z)
    (cache : TTLCache.t) (video_id other_id : string) :
  cache_ok cache →
  hash other_id ≠ hash video_id →
  (length (TTLCache.links cache) < TTLCache.maxsize cache)%nat →
  now + elapsed up video_id ≤ now' →
  let cache1 := (track_details hash up now cache video_id).1.2 in
  (TTLCache.get cache1 (hash other_id) now').1
  = (TTLCache.get cache (hash other_id) now').1
  ∧ (audio_stage hash up' now' cache1 other_id).1.1
    = (audio_stage hash up' now' cache other_id).1.1
  ∧ (audio_stage hash up' now' cache1 other_id).2
    = (audio_stage hash up' now' cache other_id).2.
Proof.
  intros Hok Hne Hroom Hlater cache1.
  pose proof (track_details_maxsize hash up now cache video_id) as Hmax.
  fold cache1 in Hmax.
  assert (Hget : (TTLCache.get cache1 (hash other_id) now').1
                 = (TTLCache.get cache (hash other_id) now').1).
  { subst cache1. rewrite track_details_cache. unfold audio_stage.
    pose proof (get_other_after_get cache (hash other_id) (hash video_id)
                  now now' Hne) as Hafter.
    destruct (TTLCache.get cache (hash video_id) now) as [[u|] c1] eqn:Hlook;
      cbn [fst snd] in *; [done|].
    assert (c1 = cache) as ->.
    { apply (f_equal fst) in Hlook as Hfst. cbn in Hfst.
      rewrite (get_miss _ _ _ Hfst) in Hlook. by injection Hlook. }
    destruct (wait_for 8000 _ _) as [u|e]; [|by destruct e].
    destruct (TTLCache.setitem cache (hash video_id) u _) as [c2|e] eqn:Hset;
      cbn [fst snd]; [|done].
    by eapply get_other_after_setitem. }
  split; [done|]. by apply audio_stage_same_lookup.
Qed.

Lemma other_tracks_keep_their_entry_witness :
  let cache1 := (track_details length_hash up_audio 2000 warm_cache "SHORTID").1.2 in
  (audio_stage length_hash up_broken 5000 cache1 "AAAAAAAAAAA").1.1 = []
  ∧ (audio_stage length_hash up_broken 5000 cache1 "AAAAAAAAAAA").2
    = Return "u128b".
Proof.
  intros cache1.
  destruct (other_tracks_keep_their_entry length_hash up_audio up_broken
              2000 5000 warm_cache "SHORTID" "AAAAAAAAAAA")
    as (_ & Hcalls & Hout); [|discriminate|cbn; lia|simpl; lia|].
  - split; [|cbn; lia]. cbn. apply NoDup_singleton.
  - fold cache1 in Hcalls, Hout. by rewrite Hcalls, Hout.
Defined.

(** X19. With a time to live of zero or less nothing is served from the
    cache: a request that comes once a URL has been stored lists the
    streams again, however soon it comes. *)
Theorem no_hit_without_time_to_live
    (hash : string → Z) (up1 up2 : upstream) (now1 now2 : Z)
    (cache : TTLCache.t) (video_id audio_url : string) :
  TTLCache.ttl cache ≤ 0 →
  (1 ≤ TTLCache.maxsize cache)%nat →
  (TTLCache.get cache (hash video_id) now1).1 = None →
  wait_for 8000 (elapsed up1 video_id)
           (_extract_audio_url (yt_streams up1) video_id) = Return audio_url →
  now1 + elapsed up1 video_id ≤ now2 →
  let cache1 := (audio_stage hash up1 now1 cache video_id).1.2 in
  (TTLCache.get cache1 (hash video_id) now2).1 = None
  ∧ (audio_stage hash up2 now2 cache1 video_id).1.1 = [Streams video_id].
Proof.
  intros Httl Hmax Hmiss Hwait Hlater cache1. subst cache1.
  destruct (audio_stage_stores _ _ _ _ _ _ Hmax Hmiss Hwait) as (c1 & Hset & ->).
  cbn [fst snd].
  pose proof (get_after_setitem _ _ _ _ _ now2 Hset) as Hget.
  rewrite bool_decide_eq_false_2 in Hget by lia.
  split; [done|]. rewrite (audio_stage_miss hash up2 _ _ _ Hget).
  destruct (wait_for 8000 (elapsed up2 video_id) _) as [u|e]; [|by destruct e].
  by destruct (TTLCache.setitem c1 _ u _).
Qed.

Lemma no_hit_without_time_to_live_witness :
  let cache1 := (audio_stage length_hash up_audio 0 (audio_cache (Some 0))
                   "AAAAAAAAAAA").1.2 in
  (audio_stage length_hash up_audio 1200 cache1 "AAAAAAAAAAA").1.1
  = [Streams "AAAAAAAAAAA"].
Proof.
  apply (no_hit_without_time_to_live length_hash up_audio up_audio 0 1200
           (audio_cache (Some 0)) "AAAAAAAAAAA" "u128b");
    [simpl; lia|simpl; lia|reflexivity|reflexivity|simpl; lia].
Defined.


